(** * sjasmplus-doc-tool: the label hierarchy and its descriptions

    A shallow embedding of [src/hierarchyentry.ts] (class [HierarchyEntry])
    and the properties of lookup, description extraction and traversal.

    Conventions of the embedding:
    - a JavaScript string is a [string]; every [ascii] stands for one code
      unit in the range 0..255 (code units above 255 are not modelled);
    - a JavaScript number that holds a line number or an index is a [Z];
    - [undefined] as a result is [None];
    - a [Map<string,HierarchyEntry>] is an association list in insertion
      order with [mapGet] and [mapSet] (a [Map] iterates in insertion
      order, and [iterate] depends on that order);
    - [ListFile.getMainLine] lives in [listfile.ts], which is not part of
      the sources at hand: it is the interface [ListFile]. *)

From Equations Require Import Equations.
From Stdlib Require Import ZArith List String Ascii Bool Lia Permutation.
Import ListNotations.
Local Open Scope string_scope.
Local Open Scope Z_scope.

(** ** Strings and the two regular expressions *)

(** The code units below 256 that [\s] matches: TAB, LF, VT, FF, CR,
    SPACE and NO-BREAK SPACE. *)
Definition isSpace (c : ascii) : bool :=
  let n := nat_of_ascii c in
  ((9 <=? n) && (n <=? 13) || (n =? 32) || (n =? 160))%nat.

(** The code units below 256 that [.] does not match: LF and CR. *)
Definition isLineTerminator (c : ascii) : bool :=
  let n := nat_of_ascii c in
  ((n =? 10) || (n =? 13))%nat.

Definition isSemicolon (c : ascii) : bool := (nat_of_ascii c =? 59)%nat.

Definition isDot (c : ascii) : bool := (nat_of_ascii c =? 46)%nat.

(** [/^\s*$/.exec(s)] is not null: without the [m] flag [$] is the end of
    the input, so every code unit of [s] is white space. *)
Fixpoint isBlank (s : string) : bool :=
  match s with
  | EmptyString => true
  | String c r => isSpace c && isBlank r
  end.

(** The greedy capture group: the longest prefix without a line
    terminator. *)
Fixpoint dotStar (s : string) : string :=
  match s with
  | EmptyString => EmptyString
  | String c r => if isLineTerminator c then EmptyString else String c (dotStar r)
  end.

(** The comment pattern of [getSingleDescription] (start of input, white
    space, a semicolon, then one capture group of any text up to a line
    terminator) run on [s]: [None] when there is no match, [Some g] with
    [g] the capture group otherwise.  A semicolon is not white space, so
    the white space part has to take all of the leading white space. *)
Fixpoint commentText (s : string) : option string :=
  match s with
  | EmptyString => None
  | String c r =>
      if isSemicolon c then Some (dotStar r)
      else if isSpace c then commentText r
      else None
  end.

(** [descr.join(sep)] *)
Fixpoint join (sep : string) (l : list string) : string :=
  match l with
  | [] => EmptyString
  | [x] => x
  | x :: r => x ++ sep ++ join sep r
  end.

(** The string ['\n']. *)
Definition newline : string := String (ascii_of_nat 10) EmptyString.

(** [label.indexOf('.')], [-1] when there is no dot. *)
Fixpoint indexOfDot (s : string) : Z :=
  match s with
  | EmptyString => -1
  | String c r =>
      if isDot c then 0
      else let i := indexOfDot r in if i <? 0 then -1 else i + 1
  end.

Fixpoint strTake (n : nat) (s : string) : string :=
  match n, s with
  | S n', String c r => String c (strTake n' r)
  | _, _ => EmptyString
  end.

Fixpoint strDrop (n : nat) (s : string) : string :=
  match n, s with
  | S n', String _ r => strDrop n' r
  | _, _ => s
  end.

(** [s.substr(start, len)] and [s.substr(start)] for [0 <= start]
    (a negative [start], which counts from the end in JavaScript, does not
    occur in the code). *)
Definition substr2 (s : string) (start len : Z) : string :=
  strTake (Z.to_nat len) (strDrop (Z.to_nat start) s).

Definition substr1 (s : string) (start : Z) : string :=
  strDrop (Z.to_nat start) s.

(** [lines[k]]: [undefined] outside of the array. *)
Definition lineAt (lines : list string) (k : Z) : option string :=
  if k <? 0 then None else nth_error lines (Z.to_nat k).

(** [RegExp.prototype.exec] converts its argument to a string: [undefined]
    becomes the text "undefined". *)
Definition execSubject (o : option string) : string :=
  match o with
  | Some s => s
  | None => "undefined"
  end.

(** ** The list file adapter *)

(** [ListFile.getMainLine(line)] returns the logical text of a list file
    line.  Its code is outside of the sources at hand, so it is a
    parameter.  [getMainLineOfUndefined] is what the call does when it is
    handed [undefined] (a line read outside of the array): [None] when it
    throws, [Some s] when it returns [s]. *)
Class ListFile := {
  getMainLine : string -> string;
  getMainLineOfUndefined : option string
}.

(** ** The hierarchy *)

#[warning="-register-all"] Inductive HierarchyEntry : Type := mkEntry {
  lineNumber : Z;
  elements : list (string * HierarchyEntry);
  description : option string
}.

(** [new HierarchyEntry()] *)
Definition newEntry : HierarchyEntry := mkEntry (-1) [] None.

(** [Map.prototype.get] *)
Fixpoint mapGet {V : Type} (key : string) (m : list (string * V)) : option V :=
  match m with
  | [] => None
  | (k, v) :: r => if String.eqb k key then Some v else mapGet key r
  end.

(** [Map.prototype.set]: an existing key keeps its place, a new key goes to
    the end. *)
Fixpoint mapSet {V : Type} (key : string) (v : V) (m : list (string * V))
  : list (string * V) :=
  match m with
  | [] => [(key, v)]
  | (k, w) :: r => if String.eqb k key then (k, v) :: r else (k, w) :: mapSet key v r
  end.

(** *** getEntry *)

Lemma indexOfDot_range (s : string) :
  indexOfDot s = -1 \/ 0 <= indexOfDot s < Z.of_nat (String.length s).
Proof.
  induction s as [|c r IH]; simpl; [now left|].
  destruct (isDot c); [right; lia|].
  destruct (Z.ltb_spec (indexOfDot r) 0); [now left | right; lia].
Qed.

Lemma strDrop_length (n : nat) (s : string) :
  String.length (strDrop n s) = (String.length s - n)%nat.
Proof.
  revert s; induction n as [|n IH]; intros [|c r]; simpl; auto.
Qed.

Equations? getEntry (this : HierarchyEntry) (label : string)
  : option HierarchyEntry by wf (String.length label) lt :=
getEntry this label with Z_lt_dec (indexOfDot label) 0 := {
  | left _ := mapGet label (elements this)
  | right _ with mapGet (substr2 label 0 (indexOfDot label)) (elements this) := {
    | None := None
    | Some entry := getEntry entry (substr1 label (indexOfDot label + 1)) } }.
Proof.
  unfold substr1. rewrite strDrop_length.
  destruct (indexOfDot_range label); lia.
Qed.

(** *** getSingleDescription *)

(** How the first loop of [getSingleDescription] ends: [return undefined],
    or [break] with [k] at the first line that is not blank. *)
Inductive SkipResult : Type :=
| GiveUp
| NonEmptyAt (k : Z).

(** How [getSingleDescription] ends: it returns a string or [undefined],
    or the call of [ListFile.getMainLine] on [undefined] throws. *)
Inductive Outcome : Type :=
| Returns (d : option string)
| Throws.

(** The loop [for(const [,sublabel] of this.elements)] of
    [setDescriptions] with the call [f] as its body: the entries in the
    order of the map, up to the first call that does not return. *)
Fixpoint forEachSublabel (f : HierarchyEntry -> HierarchyEntry * bool)
         (m : list (string * HierarchyEntry))
  : list (string * HierarchyEntry) * bool :=
  match m with
  | [] => ([], true)
  | (key, sublabel) :: rest =>
      let (sublabel', ok) := f sublabel in
      if ok then
        let (rest', ok') := forEachSublabel f rest in
        ((key, sublabel') :: rest', ok')
      else ((key, sublabel') :: rest, false)
  end.

Section Descriptions.
Context {LF : ListFile}.

(** [ListFile.getMainLine(lines[k])] *)
Definition mainLineAt (lines : list string) (k : Z) : option string :=
  match lineAt lines k with
  | Some raw => Some (getMainLine raw)
  | None => getMainLineOfUndefined
  end.

(** The loop [while(true)] of lines 86 to 97, entered with the variable
    [k] at the value [k].  The first component lists the indices at which
    [lines] is read, in the order of the reads. *)
Equations? skipEmptyLines (lineNumber : Z) (lines : list string) (k : Z)
  : list Z * SkipResult by wf (Z.to_nat k) lt :=
skipEmptyLines lineNumber lines k with Z_lt_dec (k - 1) 0 := {
  | left _ := ([], GiveUp)
  | right _ with isBlank (execSubject (lineAt lines (k - 1))) := {
    | false := ([k - 1], NonEmptyAt (k - 1))
    | true with Z_ge_dec (lineNumber - (k - 1)) 3 := {
      | left _ := ([k - 1], GiveUp)
      | right _ :=
          let (reads, r) := skipEmptyLines lineNumber lines (k - 1) in
          ((k - 1) :: reads, r) } } }.
Proof. lia. Qed.

(** The loop [for(; k>=0; k--)] of lines 102 to 110, entered with the
    variable [k] at the value [k] and the array [descr] at [descr].  The
    second component is [None] when [ListFile.getMainLine] throws, and the
    final [descr] otherwise. *)
Equations? collectComments (lines : list string) (k : Z) (descr : list string)
  : list Z * option (list string) by wf (Z.to_nat (k + 1)) lt :=
collectComments lines k descr with Z_ge_dec k 0 := {
  | right _ := ([], Some descr)
  | left _ with mainLineAt lines k := {
    | None := ([k], None)
    | Some line with commentText line := {
      | None := ([k], Some descr)
      | Some comment :=
          let (reads, r) := collectComments lines (k - 1) (comment :: descr) in
          (k :: reads, r) } } }.
Proof. lia. Qed.

(** [getSingleDescription] with the indices at which it reads [lines]. *)
Definition getSingleDescriptionRun (lineNumber : Z) (lines : list string)
  : list Z * Outcome :=
  let (reads1, r) := skipEmptyLines lineNumber lines lineNumber in
  match r with
  | GiveUp => (reads1, Returns None)
  | NonEmptyAt k =>
      let (reads2, d) := collectComments lines k [] in
      ((reads1 ++ reads2)%list,
       match d with
       | Some descr => Returns (Some (join newline descr))
       | None => Throws
       end)
  end.

Definition getSingleDescription (lineNumber : Z) (lines : list string) : Outcome :=
  snd (getSingleDescriptionRun lineNumber lines).

(** The indices at which [getSingleDescription] reads [lines]. *)
Definition linesRead (lineNumber : Z) (lines : list string) : list Z :=
  fst (getSingleDescriptionRun lineNumber lines).

(** *** setDescriptions *)

(** [setDescriptions] updates the entries in place.  The result is the
    hierarchy after the call, and [true] when the call returned, [false]
    when it was left by the exception of [getSingleDescription]: the
    entries reached before the exception keep their new description, the
    others are as before. *)
Fixpoint setDescriptions (lines : list string) (this : HierarchyEntry)
  : HierarchyEntry * bool :=
  match this with
  | mkEntry ln els descr =>
      match getSingleDescription ln lines with
      | Throws => (this, false)
      | Returns d =>
          let (els', ok) := forEachSublabel (setDescriptions lines) els in
          (mkEntry ln els' d, ok)
      end
  end.

End Descriptions.

(** *** iterate *)

Section Iterate.
(** The handlers act on the state [St] of the caller. *)
Variable St : Type.
Variable enterHandler exitHandler : string -> HierarchyEntry -> St -> St.

(** The complete label of the element [label] below [prevLabel]. *)
Definition totalLabel (prevLabel label : string) : string :=
  if (0 <? String.length prevLabel)%nat
  then prevLabel ++ "." ++ label
  else label.

(** The body of the loop [for(const [label,entry] of this.elements)] of
    [iterate], with [recurse] for the call [entry.iterate]. *)
Definition visit (recurse : HierarchyEntry -> string -> St -> St)
           (prevLabel : string) (st : St) (element : string * HierarchyEntry)
  : St :=
  let (label, entry) := element in
  let st := enterHandler (totalLabel prevLabel label) entry st in
  let st := recurse entry (totalLabel prevLabel label) st in
  exitHandler (totalLabel prevLabel label) entry st.

Fixpoint iterate (this : HierarchyEntry) (prevLabel : string) (st : St) : St :=
  fold_left (visit iterate prevLabel) (elements this) st.

End Iterate.

(** The calls of the handlers. *)
Inductive Event : Type :=
| Enter (label : string) (entry : HierarchyEntry)
| Exit (label : string) (entry : HierarchyEntry).

(** Handlers that record their calls. *)
Definition recordEnter (label : string) (entry : HierarchyEntry)
           (tr : list Event) : list Event :=
  (tr ++ [Enter label entry])%list.

Definition recordExit (label : string) (entry : HierarchyEntry)
           (tr : list Event) : list Event :=
  (tr ++ [Exit label entry])%list.

(** [iterate] with the recording handlers, from [prevLabel]. *)
Definition eventsFrom (this : HierarchyEntry) (prevLabel : string) : list Event :=
  iterate (list Event) recordEnter recordExit this prevLabel [].

(** [this.iterate(enter, exit)] with the default [prevLabel = '']. *)
Definition events (this : HierarchyEntry) : list Event := eventsFrom this "".

(** ** Building the hierarchy *)

(** [label.split('.')]: the segments of a dotted label path. *)
Fixpoint segments (label : string) : list string :=
  match label with
  | EmptyString => [EmptyString]
  | String c r =>
      if isDot c then EmptyString :: segments r
      else match segments r with
           | [] => [String c EmptyString]
           | seg :: rest => String c seg :: rest
           end
  end.

(** Modelled from the spec: the insertion of a label path, which the tree
    builder of the repository does outside of [hierarchyentry.ts].  "Walk or
    create nodes segment by segment starting at the root; each segment that
    does not yet exist is created with sentinel line number and empty
    children; the final segment's node has its lineNumber set"; a segment
    that exists keeps its place in the child mapping. *)
Fixpoint insertSegments (segs : list string) (line : Z) (this : HierarchyEntry)
  : HierarchyEntry :=
  match segs with
  | [] => mkEntry line (elements this) (description this)
  | seg :: rest =>
      let child :=
        match mapGet seg (elements this) with
        | Some entry => entry
        | None => newEntry
        end in
      mkEntry (lineNumber this)
              (mapSet seg (insertSegments rest line child) (elements this))
              (description this)
  end.

(** Modelled from the spec: the insertion of one dotted label path with
    its line number. *)
Definition insertLabel (this : HierarchyEntry) (labelLine : string * Z)
  : HierarchyEntry :=
  insertSegments (segments (fst labelLine)) (snd labelLine) this.

(** Modelled from the spec: the hierarchy built from the ordered list of
    the exported labels, starting at an empty root. *)
Definition buildHierarchy (labels : list (string * Z)) : HierarchyEntry :=
  fold_left insertLabel labels newEntry.

(** ** Notions used in the statements *)

(** The entry at the end of a path of segments, from [this]. *)
Fixpoint entryAt (segs : list string) (this : HierarchyEntry)
  : option HierarchyEntry :=
  match segs with
  | [] => Some this
  | seg :: rest =>
      match mapGet seg (elements this) with
      | Some entry => entryAt rest entry
      | None => None
      end
  end.

(** Induction on a hierarchy: the property holds for an entry when it
    holds for all of its elements. *)
Section HierarchyInduction.
Variable P : HierarchyEntry -> Prop.
Hypothesis step : forall ln els d,
    Forall (fun element => P (snd element)) els -> P (mkEntry ln els d).

Fixpoint HierarchyEntry_induction (this : HierarchyEntry) : P this :=
  match this with
  | mkEntry ln els d =>
      step ln els d
           ((fix all (m : list (string * HierarchyEntry))
               : Forall (fun element => P (snd element)) m :=
               match m with
               | [] => Forall_nil _
               | element :: rest =>
                   Forall_cons element
                               (HierarchyEntry_induction (snd element)) (all rest)
               end) els)
  end.

End HierarchyInduction.

(** All entries of a hierarchy, the root first. *)
Fixpoint entries (this : HierarchyEntry) : list HierarchyEntry :=
  this :: flat_map (fun element => entries (snd element)) (elements this).

(** The hierarchy without its descriptions: the line numbers, the keys,
    their order and the elements below them. *)
Fixpoint clearDescriptions (this : HierarchyEntry) : HierarchyEntry :=
  mkEntry (lineNumber this)
          (map (fun element => (fst element, clearDescriptions (snd element)))
               (elements this))
          None.

(** The entries below the root in depth-first pre-order, in the order of
    the maps, each with its path of segments from the root. *)
Fixpoint descendants (this : HierarchyEntry)
  : list (list string * HierarchyEntry) :=
  flat_map
    (fun element =>
       ([fst element], snd element)
         :: map (fun d => (fst element :: fst d, snd d))
                (descendants (snd element)))
    (elements this).

(** An element of a map and the entries below it, with their paths. *)
Definition below (element : string * HierarchyEntry)
  : list (list string * HierarchyEntry) :=
  ([fst element], snd element)
    :: map (fun d => (fst element :: fst d, snd d)) (descendants (snd element)).

(** A path segment: not empty and without a dot. *)
Definition isSegment (s : string) : bool :=
  negb (String.eqb s EmptyString) && (indexOfDot s <? 0).

Fixpoint distinct (l : list string) : bool :=
  match l with
  | [] => true
  | x :: r => negb (existsb (String.eqb x) r) && distinct r
  end.

(** The keys of every map of the hierarchy are segments, and no key occurs
    twice in a map (which a [Map] guarantees). *)
Fixpoint wellKeyed (this : HierarchyEntry) : bool :=
  distinct (map fst (elements this))
  && forallb (fun element => isSegment (fst element) && wellKeyed (snd element))
             (elements this).

(** The labels and entries of the calls of the enter handler, and of the
    exit handler, in the order of the calls. *)
Definition enters (evs : list Event) : list (string * HierarchyEntry) :=
  flat_map (fun ev => match ev with Enter l e => [(l, e)] | Exit _ _ => [] end) evs.

Definition exits (evs : list Event) : list (string * HierarchyEntry) :=
  flat_map (fun ev => match ev with Enter _ _ => [] | Exit l e => [(l, e)] end) evs.

(** One event handed to the handlers [enter] and [exit]. *)
Definition handle {St : Type} (enter exit : string -> HierarchyEntry -> St -> St)
           (st : St) (ev : Event) : St :=
  match ev with
  | Enter l e => enter l e st
  | Exit l e => exit l e st
  end.

(** The events of one element of a map and of the entries below it. *)
Definition elementEvents (prevLabel : string)
           (element : string * HierarchyEntry) : list Event :=
  Enter (totalLabel prevLabel (fst element)) (snd element)
    :: (eventsFrom (snd element) (totalLabel prevLabel (fst element))
        ++ [Exit (totalLabel prevLabel (fst element)) (snd element)])%list.

(** The complete label that [iterate] computes along a path of segments,
    from [prevLabel]. *)
Definition labelFrom (prevLabel : string) (path : list string) : string :=
  fold_left totalLabel path prevLabel.

(** The line number of the entry at the end of a path, if there is one. *)
Definition lineOf (path : list string) (this : HierarchyEntry) : option Z :=
  option_map lineNumber (entryAt path this).

(** [q] is a prefix of [p], segment by segment ([q = p] included). *)
Fixpoint isPrefixOf (q p : list string) : bool :=
  match q, p with
  | [], _ => true
  | x :: q', y :: p' => String.eqb x y && isPrefixOf q' p'
  | _ :: _, [] => false
  end.

Definition samePath (q p : list string) : {q = p} + {q <> p} :=
  list_eq_dec string_dec q p.

(** The line number given with the last label of the list whose segments
    are [path]. *)
Fixpoint lastLine (labels : list (string * Z)) (path : list string) : option Z :=
  match labels with
  | [] => None
  | (label, line) :: rest =>
      match lastLine rest path with
      | Some l => Some l
      | None => if samePath path (segments label) then Some line else None
      end
  end.

(** [path] is the root or a prefix of the segments of a label of the
    list. *)
Definition onSomePath (labels : list (string * Z)) (path : list string) : bool :=
  match path with
  | [] => true
  | _ :: _ => existsb (fun l => isPrefixOf path (segments (fst l))) labels
  end.

(** The line at index [i] counts as blank for the first loop. *)
Definition blankAt (lines : list string) (i : Z) : bool :=
  isBlank (execSubject (lineAt lines i)).

(** A comment line with the text [c]: the raw line is not blank and its
    logical text is white space, a semicolon and then [c]. *)
Definition commentLine {LF : ListFile} (raw c : string) : Prop :=
  isBlank raw = false /\ commentText (getMainLine raw) = Some c.

(** A list file adapter for the examples: the logical text is the raw
    line, and the call on [undefined] throws. *)
Definition plainListFile : ListFile :=
  {| getMainLine := fun line => line; getMainLineOfUndefined := None |}.

(** No code unit of [s] is a line terminator. *)
Fixpoint oneLine (s : string) : bool :=
  match s with
  | EmptyString => true
  | String c r => negb (isLineTerminator c) && oneLine r
  end.

(** The enter and exit events read as opening and closing brackets: the
    labels that are entered and not yet left, the innermost first, after
    the events [evs], from [stack]; [None] when an exit does not close the
    innermost open label. *)
Fixpoint nesting (stack : list string) (evs : list Event)
  : option (list string) :=
  match evs with
  | [] => Some stack
  | Enter label _ :: rest => nesting (label :: stack) rest
  | Exit label _ :: rest =>
      match stack with
      | top :: stack' =>
          if String.eqb top label then nesting stack' rest else None
      | [] => None
      end
  end.

(** * Properties *)

(** ** Description extraction *)

Section DescriptionFacts.
Context {LF : ListFile}.

(** What the first loop establishes, entered at most two lines above the
    label. *)
Lemma skipEmptyLines_spec (lineNumber : Z) (lines : list string) (k : Z) :
  lineNumber - 2 <= k <= lineNumber ->
  match snd (skipEmptyLines lineNumber lines k) with
  | GiveUp =>
      forall i, Z.max 0 (lineNumber - 3) <= i < k -> blankAt lines i = true
  | NonEmptyAt j =>
      0 <= j < k /\ lineNumber - j <= 3 /\ blankAt lines j = false /\
      forall i, j < i < k -> blankAt lines i = true
  end.
Proof.
  funelim (skipEmptyLines lineNumber lines k); intros Hk; simpl.
  - intros i Hi. lia.
  - fold (blankAt lines (k - 1)) in *. repeat split; try lia; auto.
  - fold (blankAt lines (k - 1)) in *. intros i Hi.
    assert (i = k - 1) by lia. subst i. assumption.
  - fold (blankAt lines (k - 1)) in *.
    specialize (H ltac:(lia)).
    destruct (skipEmptyLines _ lines (k - 1)) as [reads [|j]]; simpl in *.
    + intros i Hi. destruct (Z.eq_dec i (k - 1)) as [->|]; [assumption|].
      apply H. lia.
    + destruct H as (H1 & H2 & H3 & H4). repeat split; try lia; auto.
      intros i Hi. destruct (Z.eq_dec i (k - 1)) as [->|]; [assumption|].
      apply H4. lia.
Qed.

Lemma skipEmptyLines_GiveUp (n : Z) (lines : list string) :
  snd (skipEmptyLines n lines n) = GiveUp <->
  forall i, Z.max 0 (n - 3) <= i < n -> blankAt lines i = true.
Proof.
  pose proof (skipEmptyLines_spec n lines n ltac:(lia)) as Hs.
  destruct (snd (skipEmptyLines n lines n)) as [|j].
  - split; auto.
  - destruct Hs as (H1 & H2 & H3 & _). split; [discriminate|].
    intros Hb. rewrite Hb in H3 by lia. discriminate.
Qed.

Lemma skipEmptyLines_NonEmptyAt (n : Z) (lines : list string) (j : Z) :
  0 <= j < n -> n - j <= 3 -> blankAt lines j = false ->
  (forall i, j < i < n -> blankAt lines i = true) ->
  snd (skipEmptyLines n lines n) = NonEmptyAt j.
Proof.
  intros Hj Hd Hnb Hb.
  pose proof (skipEmptyLines_spec n lines n ltac:(lia)) as Hs.
  destruct (snd (skipEmptyLines n lines n)) as [|j'].
  - rewrite Hs in Hnb by lia. discriminate.
  - destruct Hs as (H1 & H2 & H3 & H4). f_equal.
    destruct (Z.lt_trichotomy j j') as [Hlt|[->|Hgt]]; [|reflexivity|].
    + rewrite Hb in H3 by lia. discriminate.
    + rewrite H4 in Hnb by lia. discriminate.
Qed.

Lemma skipEmptyLines_reads (n : Z) (lines : list string) (k : Z) :
  Forall (fun i => 0 <= i < k) (fst (skipEmptyLines n lines k)).
Proof.
  funelim (skipEmptyLines n lines k); simpl.
  - constructor.
  - constructor; [lia | constructor].
  - constructor; [lia | constructor].
  - destruct (skipEmptyLines _ lines (k - 1)) as [reads r]; simpl in *.
    constructor; [lia|].
    eapply Forall_impl; [|exact H]. simpl. intros; lia.
Qed.

Lemma collectComments_done (lines : list string) (k : Z) (descr : list string) :
  k < 0 -> collectComments lines k descr = ([], Some descr).
Proof.
  intros Hk. simp collectComments.
  destruct (Z_ge_dec k 0); [lia | reflexivity].
Qed.

Lemma collectComments_throw (lines : list string) (k : Z) (descr : list string) :
  0 <= k -> mainLineAt lines k = None ->
  collectComments lines k descr = ([k], None).
Proof.
  intros Hk Hm. simp collectComments.
  destruct (Z_ge_dec k 0); [|lia]. simpl. rewrite Hm. reflexivity.
Qed.

Lemma collectComments_stop (lines : list string) (k : Z) (descr : list string)
      (line : string) :
  0 <= k -> mainLineAt lines k = Some line -> commentText line = None ->
  collectComments lines k descr = ([k], Some descr).
Proof.
  intros Hk Hm Hc. simp collectComments.
  destruct (Z_ge_dec k 0); [|lia]. simpl. rewrite Hm. simpl. rewrite Hc.
  reflexivity.
Qed.

Lemma collectComments_step (lines : list string) (k : Z) (descr : list string)
      (line comment : string) :
  0 <= k -> mainLineAt lines k = Some line -> commentText line = Some comment ->
  collectComments lines k descr =
  (k :: fst (collectComments lines (k - 1) (comment :: descr)),
   snd (collectComments lines (k - 1) (comment :: descr))).
Proof.
  intros Hk Hm Hc. rewrite collectComments_equation_1.
  destruct (Z_ge_dec k 0); [|lia]. simpl. rewrite Hm. simpl. rewrite Hc.
  simpl. destruct (collectComments lines (k - 1) (comment :: descr)).
  reflexivity.
Qed.

Local Opaque mainLineAt.

Lemma collectComments_reads (lines : list string) (k : Z) (descr : list string) :
  Forall (fun i => 0 <= i <= k) (fst (collectComments lines k descr)).
Proof.
  funelim (collectComments lines k descr); simpl.
  - constructor.
  - constructor; [lia | constructor].
  - destruct (collectComments lines (k - 1) (comment :: descr)) as [reads r].
    simpl in *. constructor; [lia|].
    eapply Forall_impl; [|exact H]. simpl. intros; lia.
  - constructor; [lia | constructor].
Qed.

Lemma lineAt_inside (lines : list string) (i : Z) :
  0 <= i < Z.of_nat (List.length lines) -> lineAt lines i <> None.
Proof.
  intros Hi. unfold lineAt.
  destruct (Z.ltb_spec i 0); [lia|].
  apply nth_error_Some. lia.
Qed.

Lemma collectComments_returns (lines : list string) (k : Z) (descr : list string) :
  k < Z.of_nat (List.length lines) -> snd (collectComments lines k descr) <> None.
Proof.
  funelim (collectComments lines k descr); simpl; intros Hk; try discriminate.
  - exfalso.
    assert (lineAt lines k <> None) as Hin by (apply lineAt_inside; lia).
    with_strategy transparent [mainLineAt] (unfold mainLineAt in Heq).
    destruct (lineAt lines k); [discriminate | now apply Hin].
  - destruct (collectComments lines (k - 1) (comment :: descr)) as [reads r].
    simpl in *. apply H. lia.
Qed.

(** The lines captured so far stay at the end of the result. *)
Lemma collectComments_app (lines : list string) (k : Z) (descr more : list string) :
  collectComments lines k (descr ++ more)%list =
  (fst (collectComments lines k descr),
   option_map (fun l => (l ++ more)%list) (snd (collectComments lines k descr))).
Proof.
  revert more. funelim (collectComments lines k descr); intros more.
  - rewrite collectComments_done by lia. reflexivity.
  - rewrite (collectComments_throw lines k) by (auto; lia). reflexivity.
  - rewrite (collectComments_step lines k _ line comment) by (auto; lia).
    rewrite app_comm_cons, H.
    destruct (collectComments lines (k - 1) (comment :: descr)); reflexivity.
  - rewrite (collectComments_stop lines k _ line) by (auto; lia). reflexivity.
Qed.

Local Transparent mainLineAt.

Lemma getSingleDescription_absent (n : Z) (lines : list string) :
  getSingleDescription n lines = Returns None <->
  forall i, Z.max 0 (n - 3) <= i < n -> blankAt lines i = true.
Proof.
  rewrite <- skipEmptyLines_GiveUp.
  unfold getSingleDescription, getSingleDescriptionRun.
  destruct (skipEmptyLines n lines n) as [reads [|j]]; simpl.
  - split; reflexivity.
  - destruct (collectComments lines j []) as [reads' [descr|]]; simpl;
      split; discriminate.
Qed.

Lemma getSingleDescription_found (n : Z) (lines : list string) (j : Z) :
  0 <= j < n -> n - j <= 3 -> blankAt lines j = false ->
  (forall i, j < i < n -> blankAt lines i = true) ->
  getSingleDescription n lines =
  match snd (collectComments lines j []) with
  | Some descr => Returns (Some (join newline descr))
  | None => Throws
  end.
Proof.
  intros Hj Hd Hnb Hb.
  pose proof (skipEmptyLines_NonEmptyAt n lines j Hj Hd Hnb Hb) as Hs.
  unfold getSingleDescription, getSingleDescriptionRun.
  destruct (skipEmptyLines n lines n) as [reads r]; simpl in Hs; subst r.
  destruct (collectComments lines j []) as [reads' d]; reflexivity.
Qed.

Lemma lineAt_Some_range (lines : list string) (i : Z) (raw : string) :
  lineAt lines i = Some raw -> 0 <= i < Z.of_nat (List.length lines).
Proof.
  unfold lineAt. destruct (Z.ltb_spec i 0); [discriminate|].
  intros E. assert (nth_error lines (Z.to_nat i) <> None) as Hn by congruence.
  apply nth_error_Some in Hn. lia.
Qed.

Lemma blankAt_line (lines : list string) (i : Z) (raw : string) :
  lineAt lines i = Some raw -> blankAt lines i = isBlank raw.
Proof. intros E. unfold blankAt. rewrite E. reflexivity. Qed.

Lemma mainLineAt_line (lines : list string) (i : Z) (raw : string) :
  lineAt lines i = Some raw -> mainLineAt lines i = Some (getMainLine raw).
Proof. intros E. unfold mainLineAt. rewrite E. reflexivity. Qed.

(** C1. Blank-line tolerance.  With a label at line [n], blank lines at
    [n-1] and [n-2] and a comment line at [n-3], the description is found:
    it is the block of comments captured from [n-4] upwards followed by the
    comment of line [n-3], and it is that comment alone when the block does
    not go on above.  When line [n-3] is blank as well, the result is
    absent. *)
Theorem blank_line_tolerance (lines : list string) (n : Z) (l1 l2 l3 : string) :
  3 <= n ->
  lineAt lines (n - 1) = Some l1 -> isBlank l1 = true ->
  lineAt lines (n - 2) = Some l2 -> isBlank l2 = true ->
  lineAt lines (n - 3) = Some l3 ->
  (forall c, commentLine l3 c ->
     exists above,
       snd (collectComments lines (n - 4) []) = Some above /\
       getSingleDescription n lines =
       Returns (Some (join newline (above ++ [c])%list))) /\
  (forall c, commentLine l3 c ->
     n = 3 \/
     (exists l4, lineAt lines (n - 4) = Some l4 /\
                 commentText (getMainLine l4) = None) ->
     getSingleDescription n lines = Returns (Some c)) /\
  (isBlank l3 = true -> getSingleDescription n lines = Returns None).
Proof.
  intros Hn E1 B1 E2 B2 E3.
  assert (Hblank : forall i, n - 3 < i < n -> blankAt lines i = true).
  { intros i Hi. assert (i = n - 1 \/ i = n - 2) as [-> | ->] by lia.
    - rewrite (blankAt_line _ _ _ E1). assumption.
    - rewrite (blankAt_line _ _ _ E2). assumption. }
  assert (Hfound : forall c, commentLine l3 c ->
            getSingleDescription n lines =
            match snd (collectComments lines (n - 4) [c]) with
            | Some descr => Returns (Some (join newline descr))
            | None => Throws
            end).
  { intros c [Hnb Hc].
    rewrite (getSingleDescription_found n lines (n - 3)); try lia; auto.
    - rewrite (collectComments_step lines (n - 3) [] (getMainLine l3) c);
        try lia; auto using mainLineAt_line.
      replace (n - 3 - 1) with (n - 4) by lia. reflexivity.
    - rewrite (blankAt_line _ _ _ E3). assumption. }
  split; [|split].
  - intros c Hc. rewrite (Hfound c Hc).
    pose proof (collectComments_app lines (n - 4) [] [c]) as Happ.
    simpl in Happ. rewrite Happ. simpl.
    pose proof (collectComments_returns lines (n - 4) []) as Hret.
    apply lineAt_Some_range in E3.
    destruct (snd (collectComments lines (n - 4) [])) as [above|].
    + exists above. split; reflexivity.
    + exfalso. apply Hret; [lia | reflexivity].
  - intros c Hc Habove. rewrite (Hfound c Hc).
    destruct Habove as [-> | (l4 & E4 & C4)].
    + rewrite collectComments_done by lia. reflexivity.
    + apply lineAt_Some_range in E4 as R4.
      rewrite (collectComments_stop lines (n - 4) _ (getMainLine l4));
        try lia; auto using mainLineAt_line.
  - intros B3. apply getSingleDescription_absent. intros i Hi.
    destruct (Z.eq_dec i (n - 3)) as [->|].
    + rewrite (blankAt_line _ _ _ E3). assumption.
    + apply Hblank. lia.
Qed.

(** C5. Empty string versus absence.  When the scan upwards from a label
    at line [n] reaches a line [j] that is not blank within the tolerance
    (at most two blank lines in between), and the logical text of that line
    is not a comment, no comment line is captured and the result is the
    empty string, which is not the absent result. *)
Theorem empty_string_not_absent (lines : list string) (n j : Z) (text : string) :
  0 <= j < n -> n - j <= 3 ->
  (forall i, j < i < n -> blankAt lines i = true) ->
  blankAt lines j = false ->
  mainLineAt lines j = Some text -> commentText text = None ->
  getSingleDescription n lines = Returns (Some EmptyString) /\
  getSingleDescription n lines <> Returns None.
Proof.
  intros Hj Hd Hb Hnb Hm Hc.
  assert (getSingleDescription n lines = Returns (Some EmptyString)) as E.
  { rewrite (getSingleDescription_found n lines j Hj Hd Hnb Hb).
    rewrite (collectComments_stop lines j [] text) by (auto; lia).
    reflexivity. }
  split; [exact E | rewrite E; discriminate].
Qed.

(** C6. Absence conditions.  The result is absent, and neither the empty
    string nor an exception, when the line number is negative, when every
    line above the label is blank (the scan runs past the start of the
    source or meets the limit first), and when the three lines above the
    label are blank (the limit of 3 is reached). *)
Theorem absence_conditions (lines : list string) (n : Z) :
  n < 0 \/
  (forall i, 0 <= i < n -> blankAt lines i = true) \/
  (3 <= n /\ blankAt lines (n - 1) = true /\ blankAt lines (n - 2) = true /\
   blankAt lines (n - 3) = true) ->
  getSingleDescription n lines = Returns None /\
  getSingleDescription n lines <> Returns (Some EmptyString) /\
  getSingleDescription n lines <> Throws.
Proof.
  intros H.
  assert (getSingleDescription n lines = Returns None) as E.
  { apply getSingleDescription_absent. intros i Hi.
    destruct H as [H | [H | (H3 & B1 & B2 & B3)]].
    - lia.
    - apply H. lia.
    - assert (i = n - 1 \/ i = n - 2 \/ i = n - 3) as [-> | [-> | ->]] by lia;
        assumption. }
  rewrite E. repeat split; discriminate.
Qed.

(** C7. Comment-block contiguity and join order.  With a label at line [n],
    comment lines at [n-1] and [n-2] and a line at [n-3] whose logical text
    is not a comment (a blank line included), exactly the two comment texts
    are captured and joined with a newline, the text of [n-2] first. *)
Theorem comment_block_contiguity (lines : list string) (n : Z)
        (l1 l2 l3 c1 c2 : string) :
  3 <= n ->
  lineAt lines (n - 1) = Some l1 -> commentLine l1 c1 ->
  lineAt lines (n - 2) = Some l2 -> commentText (getMainLine l2) = Some c2 ->
  lineAt lines (n - 3) = Some l3 -> commentText (getMainLine l3) = None ->
  getSingleDescription n lines = Returns (Some (c2 ++ newline ++ c1)).
Proof.
  intros Hn E1 [B1 C1] E2 C2 E3 C3.
  rewrite (getSingleDescription_found n lines (n - 1)); try lia.
  - rewrite (collectComments_step lines (n - 1) [] (getMainLine l1) c1);
      try lia; auto using mainLineAt_line.
    replace (n - 1 - 1) with (n - 2) by lia. simpl.
    rewrite (collectComments_step lines (n - 2) [c1] (getMainLine l2) c2);
      try lia; auto using mainLineAt_line.
    replace (n - 2 - 1) with (n - 3) by lia. simpl.
    rewrite (collectComments_stop lines (n - 3) [c2; c1] (getMainLine l3));
      try lia; auto using mainLineAt_line.
  - rewrite (blankAt_line _ _ _ E1). assumption.
Qed.

Lemma getSingleDescription_no_throw (lines : list string) (n : Z) :
  0 <= n <= Z.of_nat (List.length lines) ->
  getSingleDescription n lines <> Throws.
Proof.
  intros Hn. unfold getSingleDescription, getSingleDescriptionRun.
  pose proof (skipEmptyLines_spec n lines n ltac:(lia)) as Hs.
  destruct (skipEmptyLines n lines n) as [reads1 [|j]]; simpl in *;
    [discriminate|].
  destruct Hs as (Hj & _).
  pose proof (collectComments_returns lines j [] ltac:(lia)) as Hret.
  destruct (collectComments lines j []) as [reads2 [descr|]]; simpl in *;
    [discriminate | congruence].
Qed.

(** C10. In-bounds line access.  For a line number between 0 and the
    number of lines, every index at which [getSingleDescription] reads a
    line lies between 0 and [lineNumber - 1] and inside the array, and the
    call does not end in the exception of a read outside of it. *)
Theorem reads_in_bounds (lines : list string) (n : Z) :
  0 <= n <= Z.of_nat (List.length lines) ->
  Forall (fun i => 0 <= i <= n - 1 /\ lineAt lines i <> None) (linesRead n lines) /\
  getSingleDescription n lines <> Throws.
Proof.
  intros Hn. unfold linesRead, getSingleDescription, getSingleDescriptionRun.
  pose proof (skipEmptyLines_reads n lines n) as R1.
  pose proof (skipEmptyLines_spec n lines n ltac:(lia)) as Hs.
  assert (Hin : forall i, 0 <= i < n -> 0 <= i <= n - 1 /\ lineAt lines i <> None).
  { intros i Hi. split; [lia|]. apply lineAt_inside. lia. }
  destruct (skipEmptyLines n lines n) as [reads1 [|j]]; simpl in *.
  - split; [|discriminate].
    eapply Forall_impl; [|exact R1]. exact Hin.
  - destruct Hs as (Hj & _).
    pose proof (collectComments_reads lines j []) as R2.
    pose proof (collectComments_returns lines j [] ltac:(lia)) as Hret.
    destruct (collectComments lines j []) as [reads2 [descr|]]; simpl in *.
    + split; [|discriminate]. apply Forall_app. split.
      * eapply Forall_impl; [|exact R1]. exact Hin.
      * eapply Forall_impl; [|exact R2]. simpl. intros i Hi. apply Hin. lia.
    + exfalso. apply Hret. reflexivity.
Qed.

End DescriptionFacts.

Lemma blank_line_tolerance_witness :
  let lines := ["; Prints a string"; ""; "  "; "print_string:"] in
  (3 <= 3 /\
   lineAt lines 2 = Some "  " /\ isBlank "  " = true /\
   lineAt lines 1 = Some "" /\ isBlank "" = true /\
   lineAt lines 0 = Some "; Prints a string") /\
  @getSingleDescription plainListFile 3 lines = Returns (Some " Prints a string").
Proof.
  intros lines. split.
  - repeat split; try reflexivity; lia.
  - refine (proj1 (proj2 (@blank_line_tolerance plainListFile lines 3
                            "  " "" "; Prints a string"
                            _ eq_refl eq_refl eq_refl eq_refl eq_refl))
                  " Prints a string" (conj eq_refl eq_refl) (or_introl eq_refl)).
    lia.
Defined.

Lemma empty_string_not_absent_witness :
  let lines := ["    ld a, 5"; ""; "start:"] in
  (0 <= 0 < 2 /\ 2 - 0 <= 3 /\
   (forall i, 0 < i < 2 -> blankAt lines i = true) /\
   blankAt lines 0 = false /\
   @mainLineAt plainListFile lines 0 = Some "    ld a, 5" /\
   commentText "    ld a, 5" = None) /\
  @getSingleDescription plainListFile 2 lines = Returns (Some EmptyString).
Proof.
  intros lines.
  assert (Hb : forall i, 0 < i < 2 -> blankAt lines i = true).
  { intros i Hi. assert (i = 1) as -> by lia. reflexivity. }
  split.
  - repeat split; try reflexivity; try lia. exact Hb.
  - refine (proj1 (@empty_string_not_absent plainListFile lines 2 0 "    ld a, 5"
                     _ _ Hb eq_refl eq_refl eq_refl)); lia.
Defined.

Lemma absence_conditions_witness :
  let lines := ["; text"; ""; "  "; ""; "entry:"] in
  (3 <= 4 /\ blankAt lines 3 = true /\ blankAt lines 2 = true /\
   blankAt lines 1 = true) /\
  @getSingleDescription plainListFile 4 lines = Returns None /\
  @getSingleDescription plainListFile (-1) lines = Returns None.
Proof.
  intros lines. split; [|split].
  - repeat split; try reflexivity; lia.
  - refine (proj1 (@absence_conditions plainListFile lines 4
                     (or_intror (or_intror (conj _ (conj eq_refl (conj eq_refl eq_refl))))))).
    lia.
  - refine (proj1 (@absence_conditions plainListFile lines (-1) (or_introl _))).
    lia.
Defined.

Lemma comment_block_contiguity_witness :
  let lines := ["  nop"; "; first"; " ; second"; "entry:"] in
  (3 <= 3 /\
   lineAt lines 2 = Some " ; second" /\
   @commentLine plainListFile " ; second" " second" /\
   lineAt lines 1 = Some "; first" /\
   commentText (@getMainLine plainListFile "; first") = Some " first" /\
   lineAt lines 0 = Some "  nop" /\
   commentText (@getMainLine plainListFile "  nop") = None) /\
  @getSingleDescription plainListFile 3 lines =
  Returns (Some (" first" ++ newline ++ " second")).
Proof.
  intros lines. split.
  - repeat split; try reflexivity; lia.
  - refine (@comment_block_contiguity plainListFile lines 3
              " ; second" "; first" "  nop" " second" " first"
              _ eq_refl (conj eq_refl eq_refl) eq_refl eq_refl eq_refl eq_refl).
    lia.
Defined.

Lemma reads_in_bounds_witness :
  let lines := ["; first"; "entry:"] in
  0 <= 1 <= Z.of_nat (List.length lines) /\
  Forall (fun i => 0 <= i <= 1 - 1 /\ lineAt lines i <> None)
         (@linesRead plainListFile 1 lines).
Proof.
  intros lines.
  assert (H : 0 <= 1 <= Z.of_nat (List.length lines)) by (simpl; lia).
  split; [exact H|].
  exact (proj1 (@reads_in_bounds plainListFile lines 1 H)).
Defined.

(** ** Description attachment *)

Section SetDescriptionsFacts.
Context {LF : ListFile}.

Lemma forEachSublabel_twice (f : HierarchyEntry -> HierarchyEntry * bool)
      (m : list (string * HierarchyEntry)) :
  Forall (fun element => f (fst (f (snd element))) = f (snd element)) m ->
  forEachSublabel f (fst (forEachSublabel f m)) = forEachSublabel f m.
Proof.
  induction 1 as [|[key sublabel] rest Hf _ IH]; simpl in *; [reflexivity|].
  destruct (f sublabel) as [sublabel' ok] eqn:E. simpl in Hf.
  destruct ok.
  - destruct (forEachSublabel f rest) as [rest' ok'] eqn:Er. simpl in *.
    rewrite Hf, IH. reflexivity.
  - simpl. rewrite Hf. reflexivity.
Qed.

(** C8. Idempotence of description attachment.  A second run of
    [setDescriptions] with the same lines leaves the hierarchy as the first
    run left it, and ends as the first run ended. *)
Theorem setDescriptions_idempotent (lines : list string) (this : HierarchyEntry) :
  setDescriptions lines (fst (setDescriptions lines this)) =
  setDescriptions lines this.
Proof.
  induction this as [ln els d0 IH] using HierarchyEntry_induction.
  simpl. destruct (getSingleDescription ln lines) as [d|] eqn:E.
  - pose proof (forEachSublabel_twice (setDescriptions lines) els IH) as Hm.
    destruct (forEachSublabel (setDescriptions lines) els) as [els' ok].
    simpl in *. rewrite E, Hm. reflexivity.
  - simpl. rewrite E. reflexivity.
Qed.

Lemma forEachSublabel_clear (f : HierarchyEntry -> HierarchyEntry * bool)
      (m : list (string * HierarchyEntry)) :
  Forall (fun element =>
            clearDescriptions (fst (f (snd element))) =
            clearDescriptions (snd element)) m ->
  map (fun element => (fst element, clearDescriptions (snd element)))
      (fst (forEachSublabel f m)) =
  map (fun element => (fst element, clearDescriptions (snd element))) m.
Proof.
  induction 1 as [|[key sublabel] rest Hf _ IH]; simpl in *; [reflexivity|].
  destruct (f sublabel) as [sublabel' ok]. simpl in Hf.
  destruct ok.
  - destruct (forEachSublabel f rest) as [rest' ok']. simpl in *.
    rewrite Hf, IH. reflexivity.
  - simpl. rewrite Hf. reflexivity.
Qed.

Lemma setDescriptions_clear (lines : list string) (this : HierarchyEntry) :
  clearDescriptions (fst (setDescriptions lines this)) = clearDescriptions this.
Proof.
  induction this as [ln els d0 IH] using HierarchyEntry_induction.
  simpl. destruct (getSingleDescription ln lines) as [d|]; [|reflexivity].
  pose proof (forEachSublabel_clear (setDescriptions lines) els IH) as Hm.
  destruct (forEachSublabel (setDescriptions lines) els) as [els' ok].
  simpl in *. rewrite Hm. reflexivity.
Qed.

Lemma forEachSublabel_entries (f : HierarchyEntry -> HierarchyEntry * bool)
      (Q : HierarchyEntry -> Prop) (m : list (string * HierarchyEntry)) :
  Forall (fun element =>
            snd (f (snd element)) = true ->
            Forall Q (entries (fst (f (snd element))))) m ->
  snd (forEachSublabel f m) = true ->
  Forall Q (flat_map (fun element => entries (snd element))
                     (fst (forEachSublabel f m))).
Proof.
  induction 1 as [|[key sublabel] rest Hf _ IH]; simpl in *; [constructor|].
  destruct (f sublabel) as [sublabel' ok]. simpl in Hf.
  destruct ok; [|discriminate].
  destruct (forEachSublabel f rest) as [rest' ok']. simpl in *.
  intros ->. apply Forall_app. split; auto.
Qed.

(** After a run that returned, every entry holds the result of
    [getSingleDescription] for its line number. *)
Lemma setDescriptions_entries (lines : list string) (this : HierarchyEntry) :
  snd (setDescriptions lines this) = true ->
  Forall (fun node =>
            getSingleDescription (lineNumber node) lines =
            Returns (description node))
         (entries (fst (setDescriptions lines this))).
Proof.
  induction this as [ln els d0 IH] using HierarchyEntry_induction.
  simpl. destruct (getSingleDescription ln lines) as [d|] eqn:E;
    [|discriminate].
  pose proof (forEachSublabel_entries (setDescriptions lines) _ els IH) as Hm.
  destruct (forEachSublabel (setDescriptions lines) els) as [els' ok].
  simpl in *. intros ->. constructor; [exact E | auto].
Qed.

Lemma forEachSublabel_returns (f : HierarchyEntry -> HierarchyEntry * bool)
      (m : list (string * HierarchyEntry)) :
  Forall (fun element => snd (f (snd element)) = true) m ->
  snd (forEachSublabel f m) = true.
Proof.
  induction 1 as [|[key sublabel] rest Hf _ IH]; simpl in *; [reflexivity|].
  destruct (f sublabel) as [sublabel' ok]. simpl in Hf. subst ok.
  destruct (forEachSublabel f rest) as [rest' ok']. assumption.
Qed.

(** [setDescriptions] returns when no line number of the hierarchy lies
    beyond the end of the lines. *)
Lemma setDescriptions_returns (lines : list string) (this : HierarchyEntry) :
  Forall (fun node => lineNumber node <= Z.of_nat (List.length lines))
         (entries this) ->
  snd (setDescriptions lines this) = true.
Proof.
  induction this as [ln els d0 IH] using HierarchyEntry_induction.
  simpl. intros Hall. inversion Hall as [|? ? Hln Hrest]; subst. simpl in Hln.
  destruct (getSingleDescription ln lines) as [d|] eqn:E.
  - assert (Forall (fun element => snd (setDescriptions lines (snd element)) = true) els)
      as Hels.
    { clear - IH Hrest. induction IH as [|element rest Hf _ IHr]; [constructor|].
      simpl in Hrest. apply Forall_app in Hrest as [H1 H2].
      constructor; auto. }
    pose proof (forEachSublabel_returns (setDescriptions lines) els Hels) as Hm.
    destruct (forEachSublabel (setDescriptions lines) els) as [els' ok].
    assumption.
  - exfalso. destruct (Z_lt_dec ln 0) as [Hneg|Hpos].
    + assert (getSingleDescription ln lines = Returns None) as E'.
      { apply getSingleDescription_absent. intros i Hi. lia. }
      congruence.
    + pose proof (getSingleDescription_no_throw lines ln ltac:(lia)) as Hb. congruence.
Qed.

Lemma getSingleDescription_joined (n : Z) (lines : list string) (d : string) :
  getSingleDescription n lines = Returns (Some d) ->
  exists comments, d = join newline comments.
Proof.
  unfold getSingleDescription, getSingleDescriptionRun.
  destruct (skipEmptyLines n lines n) as [reads1 [|j]]; simpl; [discriminate|].
  destruct (collectComments lines j []) as [reads2 [descr|]]; simpl;
    [|discriminate].
  intros E. injection E as <-. exists descr. reflexivity.
Qed.

(** C2, as the code has it.  [setDescriptions] returns when no line
    number of the hierarchy lies beyond the end of the lines.  After a run
    that returned, the description of every entry is the result of
    [getSingleDescription] for its line number: absent, or the captured
    comment texts joined by newlines (the empty string when there are
    none).  It is absent exactly when all of the up to three lines above
    the label are blank, which is the case for every negative line number,
    the sentinel included, and can be the case for other line numbers. *)
Theorem description_outcomes (lines : list string) (this : HierarchyEntry) :
  (Forall (fun node => lineNumber node <= Z.of_nat (List.length lines))
          (entries this) ->
   snd (setDescriptions lines this) = true) /\
  (snd (setDescriptions lines this) = true ->
   Forall (fun node =>
             getSingleDescription (lineNumber node) lines =
             Returns (description node) /\
             (description node = None <->
              forall i, Z.max 0 (lineNumber node - 3) <= i < lineNumber node ->
                        blankAt lines i = true) /\
             (lineNumber node < 0 -> description node = None) /\
             (description node = None \/
              exists comments, description node = Some (join newline comments)))
          (entries (fst (setDescriptions lines this)))).
Proof.
  split; [apply setDescriptions_returns|].
  intros Hok. eapply Forall_impl; [|exact (setDescriptions_entries lines this Hok)].
  simpl. intros node E.
  assert (description node = None <->
          forall i, Z.max 0 (lineNumber node - 3) <= i < lineNumber node ->
                    blankAt lines i = true) as Habs.
  { rewrite <- getSingleDescription_absent, E.
    split; [intros ->; reflexivity | intros H; now injection H]. }
  repeat split; try apply Habs.
  - exact E.
  - intros Hneg. apply Habs. intros i Hi. lia.
  - destruct (description node) as [d|] eqn:Ed; [right | now left].
    destruct (getSingleDescription_joined _ _ _ E) as [comments ->].
    exists comments. reflexivity.
Qed.

End SetDescriptionsFacts.

Lemma description_outcomes_witness :
  let lines := ["; Entry point"; ""; "entry:"] in
  let root := mkEntry (-1) [("entry", mkEntry 2 [] None)] None in
  snd (@setDescriptions plainListFile lines root) = true /\
  Forall (fun node =>
            @getSingleDescription plainListFile (lineNumber node) lines =
            Returns (description node) /\
            (description node = None <->
             forall i, Z.max 0 (lineNumber node - 3) <= i < lineNumber node ->
                       blankAt lines i = true) /\
            (lineNumber node < 0 -> description node = None) /\
            (description node = None \/
             exists comments, description node = Some (join newline comments)))
         (entries (fst (@setDescriptions plainListFile lines root))).
Proof.
  intros lines root. split; [reflexivity|].
  exact (proj2 (@description_outcomes plainListFile lines root) eq_refl).
Defined.

(** C2 as the claim states it fails: a label at line 3 below three blank
    lines has a line number that is not the sentinel, and its description
    is absent after a run of [setDescriptions] that returned. *)
Lemma description_outcomes_counterexample :
  let lines := [""; ""; ""; "entry:"] in
  let root := mkEntry (-1) [("entry", mkEntry 3 [] None)] None in
  snd (@setDescriptions plainListFile lines root) = true /\
  exists node,
    In node (entries (fst (@setDescriptions plainListFile lines root))) /\
    lineNumber node = 3 /\ description node = None.
Proof.
  intros lines root. split; [reflexivity|].
  exists (mkEntry 3 [] None). split; [|split; reflexivity].
  right. left. reflexivity.
Qed.

(** ** Traversal *)

Section IterateFacts.

Lemma iterate_elements (St : Type)
      (enter exit : string -> HierarchyEntry -> St -> St)
      (this : HierarchyEntry) (prevLabel : string) (st : St) :
  iterate St enter exit this prevLabel st =
  fold_left (visit St enter exit (iterate St enter exit) prevLabel)
            (elements this) st.
Proof. destruct this; reflexivity. Qed.

Lemma record_app (this : HierarchyEntry) :
  forall prevLabel acc,
    iterate (list Event) recordEnter recordExit this prevLabel acc =
    (acc ++ eventsFrom this prevLabel)%list.
Proof.
  induction this as [ln els d IH] using HierarchyEntry_induction.
  intros prevLabel acc. unfold eventsFrom. rewrite !iterate_elements. simpl.
  revert acc.
  induction IH as [|[label entry] rest Hentry _ IHrest]; intros acc; simpl.
  - rewrite app_nil_r. reflexivity.
  - simpl in Hentry. rewrite IHrest. rewrite (IHrest (recordExit _ _ _)).
    rewrite app_assoc. f_equal.
    unfold recordExit, recordEnter. rewrite !Hentry. simpl.
    rewrite <- !app_assoc. reflexivity.
Qed.

Lemma eventsFrom_elements (this : HierarchyEntry) (prevLabel : string) :
  eventsFrom this prevLabel = flat_map (elementEvents prevLabel) (elements this).
Proof.
  unfold eventsFrom at 1. rewrite iterate_elements.
  assert (forall acc,
             fold_left (visit (list Event) recordEnter recordExit
                              (iterate (list Event) recordEnter recordExit)
                              prevLabel) (elements this) acc =
             (acc ++ flat_map (elementEvents prevLabel) (elements this))%list) as H.
  { induction (elements this) as [|[label entry] rest IH]; intros acc; simpl.
    - rewrite app_nil_r. reflexivity.
    - rewrite IH. unfold recordExit, recordEnter. rewrite record_app.
      rewrite <- !app_assoc. reflexivity. }
  apply H.
Qed.

(** [iterate] hands the events of the hierarchy to its handlers, one after
    the other. *)
Lemma iterate_events (St : Type)
      (enter exit : string -> HierarchyEntry -> St -> St)
      (this : HierarchyEntry) :
  forall prevLabel st,
    iterate St enter exit this prevLabel st =
    fold_left (handle enter exit) (eventsFrom this prevLabel) st.
Proof.
  induction this as [ln els d IH] using HierarchyEntry_induction.
  intros prevLabel st. rewrite eventsFrom_elements, iterate_elements. simpl.
  revert st.
  induction IH as [|[label entry] rest Hentry _ IHrest]; intros st; simpl.
  - reflexivity.
  - simpl in Hentry. rewrite IHrest, Hentry.
    rewrite fold_left_app. simpl. rewrite fold_left_app. reflexivity.
Qed.

Lemma enters_app (a b : list Event) :
  enters (a ++ b) = (enters a ++ enters b)%list.
Proof. apply flat_map_app. Qed.

Lemma exits_app (a b : list Event) :
  exits (a ++ b) = (exits a ++ exits b)%list.
Proof. apply flat_map_app. Qed.

(** The enter handler is called for the entries below the root in
    pre-order, each with the label computed along its path. *)
Lemma enters_descendants (this : HierarchyEntry) :
  forall prevLabel,
    enters (eventsFrom this prevLabel) =
    map (fun d => (labelFrom prevLabel (fst d), snd d)) (descendants this).
Proof.
  induction this as [ln els d IH] using HierarchyEntry_induction.
  intros prevLabel. rewrite eventsFrom_elements. simpl.
  induction IH as [|[label entry] rest Hentry _ IHrest]; simpl; [reflexivity|].
  simpl in Hentry. rewrite enters_app, enters_app, IHrest, Hentry. simpl.
  rewrite app_nil_r, map_app, map_map. reflexivity.
Qed.

(** Every call of the enter handler has its call of the exit handler, with
    the same label and entry. *)
Lemma exits_enters (this : HierarchyEntry) :
  forall prevLabel,
    Permutation (exits (eventsFrom this prevLabel))
                (enters (eventsFrom this prevLabel)).
Proof.
  induction this as [ln els d IH] using HierarchyEntry_induction.
  intros prevLabel. rewrite eventsFrom_elements. simpl.
  induction IH as [|[label entry] rest Hentry _ IHrest]; simpl; [constructor|].
  simpl in Hentry. rewrite exits_app, exits_app, enters_app, enters_app. simpl.
  rewrite !app_nil_r, app_comm_cons. apply Permutation_app; [|exact IHrest].
  rewrite <- Permutation_cons_append. constructor. apply Hentry.
Qed.

End IterateFacts.

(** ** Labels and segments *)

Lemma strAppend_assoc (a b c : string) : ((a ++ b) ++ c = a ++ (b ++ c))%string.
Proof. induction a as [|x a IH]; simpl; [reflexivity | now rewrite IH]. Qed.

Lemma totalLabel_below (prevLabel label : string) :
  prevLabel <> EmptyString ->
  totalLabel prevLabel label = (prevLabel ++ "." ++ label)%string.
Proof.
  intros H. unfold totalLabel. destruct prevLabel; [congruence | reflexivity].
Qed.

Lemma join_cons (sep x : string) (l : list string) :
  l <> [] -> join sep (x :: l) = (x ++ sep ++ join sep l)%string.
Proof. destruct l; [congruence | reflexivity]. Qed.

(** Below a label that is not empty, [iterate] joins the segments with
    dots. *)
Lemma labelFrom_join (path : list string) :
  forall prevLabel,
    prevLabel <> EmptyString ->
    labelFrom prevLabel path = join "." (prevLabel :: path).
Proof.
  induction path as [|seg rest IH]; intros prevLabel Hne; [reflexivity|].
  unfold labelFrom in *. simpl fold_left. rewrite totalLabel_below by assumption.
  rewrite IH by (destruct prevLabel; [congruence | discriminate]).
  rewrite (join_cons "." prevLabel) by discriminate.
  destruct rest as [|seg' rest']; simpl.
  - reflexivity.
  - rewrite !strAppend_assoc. reflexivity.
Qed.

Lemma labelFrom_root (seg : string) (rest : list string) :
  seg <> EmptyString -> labelFrom EmptyString (seg :: rest) = join "." (seg :: rest).
Proof.
  intros Hne. unfold labelFrom. simpl. apply labelFrom_join. assumption.
Qed.

Lemma indexOfDot_cons (c : ascii) (r : string) :
  indexOfDot (String c r) = -1 <-> isDot c = false /\ indexOfDot r = -1.
Proof.
  simpl. destruct (isDot c).
  - split; [discriminate | intros [? _]; discriminate].
  - pose proof (indexOfDot_range r) as Hr.
    destruct (Z.ltb_spec (indexOfDot r) 0) as [Hlt|Hge]; split; intros Hi;
      try lia; auto.
Qed.

Lemma segments_not_nil (label : string) : segments label <> [].
Proof.
  destruct label as [|c r]; simpl; [discriminate|].
  destruct (isDot c); [discriminate|]. destruct (segments r); discriminate.
Qed.

Lemma segments_segment (s : string) : indexOfDot s = -1 -> segments s = [s].
Proof.
  induction s as [|c r IH]; [reflexivity|].
  intros H. apply indexOfDot_cons in H as [Hc Hr]. simpl.
  rewrite Hc, (IH Hr). reflexivity.
Qed.

Lemma segments_app_dot (s rest : string) :
  indexOfDot s = -1 ->
  segments (s ++ "." ++ rest) = s :: segments rest.
Proof.
  induction s as [|c r IH]; [reflexivity|].
  intros H. apply indexOfDot_cons in H as [Hc Hr]. simpl.
  rewrite Hc. simpl in IH. rewrite (IH Hr). reflexivity.
Qed.

(** A path of segments is read back from its dotted label. *)
Lemma segments_join (path : list string) :
  path <> [] -> Forall (fun seg => indexOfDot seg = -1) path ->
  segments (join "." path) = path.
Proof.
  induction path as [|seg rest IH]; [congruence|].
  intros _ Hall. inversion Hall as [|? ? Hseg Hrest]; subst.
  destruct rest as [|seg' rest'].
  - apply segments_segment. assumption.
  - rewrite join_cons by discriminate.
    rewrite segments_app_dot by assumption.
    rewrite IH by (auto; discriminate). reflexivity.
Qed.

(** A dotted label is read back from its segments. *)
Lemma join_segments (label : string) : join "." (segments label) = label.
Proof.
  induction label as [|c r IH]; [reflexivity|].
  simpl. destruct (isDot c) eqn:Hc.
  - rewrite join_cons by apply segments_not_nil. rewrite IH. simpl.
    f_equal. unfold isDot in Hc. apply Nat.eqb_eq in Hc.
    rewrite <- (ascii_nat_embedding c), Hc. reflexivity.
  - pose proof (segments_not_nil r) as Hne.
    destruct (segments r) as [|seg [|seg' rest]]; [congruence| |].
    + simpl in *. rewrite IH. reflexivity.
    + rewrite <- IH. rewrite !(join_cons "." _ (seg' :: rest)) by discriminate.
      reflexivity.
Qed.

(** ** Paths of the hierarchy *)

Lemma distinct_NoDup (l : list string) : distinct l = true -> NoDup l.
Proof.
  induction l as [|x r IH]; simpl; [constructor|].
  intros H. apply andb_prop in H as [Hx Hr]. constructor; auto.
  intros Hin. apply negb_true_iff in Hx.
  assert (existsb (String.eqb x) r = true) as E; [|congruence].
  apply existsb_exists. exists x. split; [assumption | apply String.eqb_refl].
Qed.

Lemma isSegment_spec (s : string) :
  isSegment s = true -> s <> EmptyString /\ indexOfDot s = -1.
Proof.
  unfold isSegment. intros H. apply andb_prop in H as [Hne Hdot].
  split.
  - intros ->. discriminate.
  - apply Z.ltb_lt in Hdot. destruct (indexOfDot_range s); lia.
Qed.

Lemma wellKeyed_elements (this : HierarchyEntry) :
  wellKeyed this = true ->
  NoDup (map fst (elements this)) /\
  Forall (fun element =>
            isSegment (fst element) = true /\ wellKeyed (snd element) = true)
         (elements this).
Proof.
  destruct this as [ln els d]. simpl. intros H.
  apply andb_prop in H as [Hd Hall]. split; [now apply distinct_NoDup|].
  apply Forall_forall. intros element Hin.
  rewrite forallb_forall in Hall. specialize (Hall element Hin).
  now apply andb_prop in Hall.
Qed.

Lemma mapGet_In {V : Type} (key : string) (m : list (string * V)) (v : V) :
  mapGet key m = Some v -> In (key, v) m.
Proof.
  induction m as [|[k w] r IH]; simpl; [discriminate|].
  destruct (String.eqb_spec k key) as [->|Hne].
  - intros E. injection E as ->. now left.
  - intros E. right. auto.
Qed.

Lemma In_mapGet {V : Type} (key : string) (m : list (string * V)) (v : V) :
  NoDup (map fst m) -> In (key, v) m -> mapGet key m = Some v.
Proof.
  induction m as [|[k w] r IH]; simpl; [contradiction|].
  intros Hnd Hin. inversion Hnd as [|? ? Hk Hr]; subst.
  destruct Hin as [E|Hin].
  - injection E as -> ->. now rewrite String.eqb_refl.
  - destruct (String.eqb_spec k key) as [->|Hne]; [|auto].
    exfalso. apply Hk. apply (in_map fst) in Hin. exact Hin.
Qed.

Lemma descendants_elements (this : HierarchyEntry) :
  descendants this = flat_map below (elements this).
Proof. destruct this; reflexivity. Qed.

(** An entry below the root is an element of the root, or lies below one. *)
Lemma In_descendants (this : HierarchyEntry) (path : list string)
      (entry : HierarchyEntry) :
  In (path, entry) (descendants this) <->
  exists key child rest,
    path = key :: rest /\ In (key, child) (elements this) /\
    (rest = [] /\ entry = child \/ In (rest, entry) (descendants child)).
Proof.
  rewrite descendants_elements, in_flat_map. split.
  - intros ([key child] & Hin & [E | Hd]); simpl in *.
    + injection E as <- <-. exists key, child, []. auto.
    + apply in_map_iff in Hd as ([rest e] & E & Hd). simpl in E.
      injection E as <- <-. exists key, child, rest. auto.
  - intros (key & child & rest & -> & Hin & Hcase).
    exists (key, child). split; [assumption|]. simpl.
    destruct Hcase as [[-> ->] | Hd]; [now left | right].
    apply in_map_iff. exists (rest, entry). auto.
Qed.

(** The root is not among the entries that the traversal visits. *)
Lemma descendants_below_root (this : HierarchyEntry) :
  Forall (fun d => fst d <> []) (descendants this).
Proof.
  apply Forall_forall. intros [path entry] Hin.
  apply In_descendants in Hin as (key & child & rest & -> & _). discriminate.
Qed.

Lemma descendants_entryAt (this : HierarchyEntry) :
  forall path entry,
    path <> [] -> entryAt path this = Some entry ->
    In (path, entry) (descendants this).
Proof.
  induction this as [ln els d IH] using HierarchyEntry_induction.
  intros [|key rest] entry Hne Hat; [congruence|].
  apply In_descendants. simpl in Hat |- *.
  destruct (mapGet key els) as [child|] eqn:Eg; [|discriminate].
  apply mapGet_In in Eg.
  exists key, child, rest. repeat split; auto.
  destruct rest as [|key' rest'].
  - left. split; [reflexivity|]. simpl in Hat. congruence.
  - right. rewrite Forall_forall in IH. apply (IH _ Eg); [discriminate|].
    exact Hat.
Qed.

Lemma entryAt_descendants (this : HierarchyEntry) :
  wellKeyed this = true ->
  forall path entry,
    In (path, entry) (descendants this) -> entryAt path this = Some entry.
Proof.
  induction this as [ln els d IH] using HierarchyEntry_induction.
  intros Hwk path entry Hin.
  apply wellKeyed_elements in Hwk as [Hnd Hall].
  apply In_descendants in Hin as (key & child & rest & -> & Hin & Hcase).
  simpl in *. rewrite (In_mapGet key els child Hnd Hin).
  destruct Hcase as [[-> ->] | Hd]; [reflexivity|].
  rewrite Forall_forall in IH, Hall.
  apply (IH _ Hin); [apply (Hall _ Hin) | exact Hd].
Qed.

Lemma paths_below (element : string * HierarchyEntry) :
  map fst (below element) =
  [fst element] :: map (cons (fst element)) (map fst (descendants (snd element))).
Proof. unfold below. simpl. rewrite !map_map. reflexivity. Qed.

Lemma paths_head (els : list (string * HierarchyEntry)) (path : list string) :
  In path (map fst (flat_map below els)) ->
  exists key rest, path = key :: rest /\ In key (map fst els).
Proof.
  intros Hin. apply in_map_iff in Hin as ([p e] & <- & Hin).
  apply in_flat_map in Hin as (element & Hel & Hin).
  apply (in_map fst) in Hin. rewrite paths_below in Hin. simpl in Hin.
  destruct Hin as [<- | Hin].
  - exists (fst element), []. split; [reflexivity | now apply in_map].
  - apply in_map_iff in Hin as (rest & <- & _).
    exists (fst element), rest. split; [reflexivity | now apply in_map].
Qed.

(** No path occurs twice among the entries below the root. *)
Lemma descendants_NoDup (this : HierarchyEntry) :
  wellKeyed this = true -> NoDup (map fst (descendants this)).
Proof.
  induction this as [ln els d IH] using HierarchyEntry_induction.
  intros Hwk. apply wellKeyed_elements in Hwk as [Hnd Hall].
  rewrite descendants_elements. simpl in *.
  induction els as [|element rest IHels]; cbn [flat_map]; [constructor|].
  inversion IH as [|? ? IHel IHrest]; subst.
  inversion Hall as [|? ? [_ Hwk] Hallrest]; subst.
  inversion Hnd as [|? ? Hkey Hndrest]; subst.
  rewrite map_app. apply NoDup_app.
  - rewrite paths_below. constructor.
    + intros Hin. apply in_map_iff in Hin as (p & E & Hin).
      injection E as ->. apply in_map_iff in Hin as ([p e] & E & Hin).
      simpl in E. subst p.
      pose proof (descendants_below_root (snd element)) as Hne.
      rewrite Forall_forall in Hne. apply (Hne _ Hin). reflexivity.
    + apply Finite.Injective_map_NoDup; [|auto].
      intros p q E. now injection E.
  - auto.
  - intros path Hin1 Hin2.
    assert (In path (map fst (flat_map below [element]))) as Hin1'
        by (cbn [flat_map]; now rewrite app_nil_r).
    apply paths_head in Hin1' as (k1 & r1 & -> & Hk1).
    apply paths_head in Hin2 as (k2 & r2 & E & Hk2).
    injection E as <- _. simpl in Hk1. destruct Hk1 as [<-|[]].
    contradiction.
Qed.

Lemma descendants_segments (this : HierarchyEntry) :
  wellKeyed this = true ->
  Forall (fun d => Forall (fun seg => isSegment seg = true) (fst d))
         (descendants this).
Proof.
  induction this as [ln els d IH] using HierarchyEntry_induction.
  intros Hwk. apply wellKeyed_elements in Hwk as [_ Hall]. simpl in Hall.
  apply Forall_forall. intros [path entry] Hin.
  apply In_descendants in Hin as (key & child & rest & -> & Hin & Hcase).
  rewrite Forall_forall in IH, Hall. simpl in *.
  destruct (Hall _ Hin) as [Hkey Hwk]. simpl in *.
  constructor; [assumption|].
  destruct Hcase as [[-> _] | Hd]; [constructor|].
  specialize (IH _ Hin Hwk). rewrite Forall_forall in IH.
  apply (IH _ Hd).
Qed.

(** The events of an entry and of the entries below it stand together in
    the events of the hierarchy, between its enter and its exit. *)
Lemma events_nested (this : HierarchyEntry) :
  forall prevLabel path entry,
    In (path, entry) (descendants this) ->
    exists before after,
      eventsFrom this prevLabel =
      (before
         ++ Enter (labelFrom prevLabel path) entry
         :: eventsFrom entry (labelFrom prevLabel path)
         ++ Exit (labelFrom prevLabel path) entry :: after)%list.
Proof.
  induction this as [ln els d IH] using HierarchyEntry_induction.
  intros prevLabel path entry Hin.
  apply In_descendants in Hin as (key & child & rest & -> & Hin & Hcase).
  simpl in Hin. rewrite eventsFrom_elements. simpl elements.
  destruct (in_split _ _ Hin) as (l1 & l2 & ->).
  rewrite flat_map_app. cbn [flat_map]. unfold elementEvents at 2. simpl fst. simpl snd.
  destruct Hcase as [[-> ->] | Hd].
  - exists (flat_map (elementEvents prevLabel) l1),
           (flat_map (elementEvents prevLabel) l2).
    unfold labelFrom. simpl. rewrite <- app_assoc. reflexivity.
  - rewrite Forall_forall in IH.
    destruct (IH _ Hin (totalLabel prevLabel key) rest entry Hd)
      as (before & after & E).
    simpl in E. rewrite E.
    exists (flat_map (elementEvents prevLabel) l1
              ++ Enter (totalLabel prevLabel key) child :: before)%list,
           (after ++ Exit (totalLabel prevLabel key) child
              :: flat_map (elementEvents prevLabel) l2)%list.
    unfold labelFrom. simpl. rewrite <- !app_assoc. simpl.
    rewrite <- !app_assoc. reflexivity.
Qed.

Lemma enters_labels (this : HierarchyEntry) :
  wellKeyed this = true ->
  enters (events this) =
  map (fun d => (join "." (fst d), snd d)) (descendants this).
Proof.
  intros Hwk. unfold events. rewrite enters_descendants.
  apply map_ext_in. intros [path entry] Hin. simpl. f_equal.
  pose proof (descendants_segments this Hwk) as Hseg.
  rewrite Forall_forall in Hseg. specialize (Hseg _ Hin). simpl in Hseg.
  destruct path as [|key rest]; [reflexivity|].
  apply labelFrom_root. inversion Hseg as [|? ? Hkey _]; subst.
  apply isSegment_spec in Hkey. tauto.
Qed.

(** No label occurs twice among the calls of the enter handler. *)
Lemma enters_NoDup (this : HierarchyEntry) :
  wellKeyed this = true -> NoDup (map fst (enters (events this))).
Proof.
  intros Hwk. rewrite (enters_labels this Hwk), map_map. simpl.
  rewrite <- (map_map fst (join ".")).
  pose proof (descendants_segments this Hwk) as Hseg.
  pose proof (descendants_below_root this) as Hne.
  rewrite Forall_forall in Hseg, Hne.
  assert (Hback : forall path, In path (map fst (descendants this)) ->
                               segments (join "." path) = path).
  { intros path Hin. apply in_map_iff in Hin as ([p e] & <- & Hin).
    apply segments_join; [apply (Hne _ Hin)|].
    specialize (Hseg _ Hin). simpl in *.
    eapply Forall_impl; [|exact Hseg]. simpl. intros seg Hs.
    apply isSegment_spec in Hs. tauto. }
  apply Finite.Injective_map_NoDup_in; [|now apply descendants_NoDup].
  intros p q Hp Hq E. rewrite <- (Hback p Hp), <- (Hback q Hq), E. reflexivity.
Qed.

(** *** The hierarchies built from labels have segments as keys *)

Lemma NoDup_distinct (l : list string) : NoDup l -> distinct l = true.
Proof.
  induction 1 as [|x r Hx _ IH]; simpl; [reflexivity|].
  rewrite IH, andb_true_r. apply negb_true_iff. apply not_true_is_false.
  intros E. apply existsb_exists in E as (y & Hy & E).
  apply String.eqb_eq in E. subst y. contradiction.
Qed.

Lemma wellKeyed_intro (ln : Z) (els : list (string * HierarchyEntry))
      (d : option string) :
  NoDup (map fst els) ->
  Forall (fun element =>
            isSegment (fst element) = true /\ wellKeyed (snd element) = true)
         els ->
  wellKeyed (mkEntry ln els d) = true.
Proof.
  intros Hnd Hall. simpl. rewrite (NoDup_distinct _ Hnd). simpl.
  apply forallb_forall. intros element Hin.
  rewrite Forall_forall in Hall. destruct (Hall _ Hin) as [-> ->]. reflexivity.
Qed.

Lemma mapSet_keys {V : Type} (key : string) (v : V) (m : list (string * V))
      (x : string) :
  In x (map fst (mapSet key v m)) -> x = key \/ In x (map fst m).
Proof.
  induction m as [|[k w] r IH]; simpl.
  - intros [<-|[]]. now left.
  - destruct (String.eqb_spec k key) as [->|Hne]; simpl.
    + intros [<-|Hin]; auto.
    + intros [<-|Hin]; auto. destruct (IH Hin); auto.
Qed.

Lemma mapSet_NoDup {V : Type} (key : string) (v : V) (m : list (string * V)) :
  NoDup (map fst m) -> NoDup (map fst (mapSet key v m)).
Proof.
  induction m as [|[k w] r IH]; simpl; intros Hnd.
  - constructor; [intros [] | constructor].
  - inversion Hnd as [|? ? Hk Hr]; subst.
    destruct (String.eqb_spec k key) as [->|Hne]; simpl.
    + constructor; assumption.
    + constructor; [|auto]. intros Hin.
      apply mapSet_keys in Hin as [E|Hin]; [congruence | contradiction].
Qed.

Lemma mapSet_Forall {V : Type} (P : string * V -> Prop) (key : string) (v : V)
      (m : list (string * V)) :
  Forall P m -> P (key, v) -> Forall P (mapSet key v m).
Proof.
  intros Hall Hv. induction Hall as [|[k w] r Hkw Hr IH]; simpl.
  - constructor; [assumption | constructor].
  - destruct (String.eqb_spec k key) as [->|Hne]; constructor; auto.
Qed.

Lemma insertSegments_wellKeyed (p : list string) (line : Z) :
  Forall (fun seg => isSegment seg = true) p ->
  forall this, wellKeyed this = true ->
               wellKeyed (insertSegments p line this) = true.
Proof.
  induction 1 as [|seg p' Hseg _ IH]; intros this Hwk.
  - destruct this; exact Hwk.
  - apply wellKeyed_elements in Hwk as [Hnd Hall].
    cbn [insertSegments]. apply wellKeyed_intro.
    + apply mapSet_NoDup. assumption.
    + apply mapSet_Forall; [assumption|]. simpl. split; [assumption|].
      apply IH. destruct (mapGet seg (elements this)) as [child|] eqn:Eg;
        [|reflexivity].
      apply mapGet_In in Eg. rewrite Forall_forall in Hall.
      apply (Hall _ Eg).
Qed.

(** Labels whose segments are not empty give a hierarchy whose keys are
    segments. *)
Lemma buildHierarchy_wellKeyed (labels : list (string * Z)) :
  Forall (fun l => Forall (fun seg => isSegment seg = true) (segments (fst l)))
         labels ->
  wellKeyed (buildHierarchy labels) = true.
Proof.
  unfold buildHierarchy. assert (wellKeyed newEntry = true) as Hnew by reflexivity.
  revert Hnew. generalize newEntry.
  induction labels as [|[label line] rest IH]; intros this Hwk Hall; simpl.
  - assumption.
  - inversion Hall as [|? ? Hl Hrest]; subst. apply IH; [|assumption].
    unfold insertLabel. simpl. apply insertSegments_wellKeyed; assumption.
Qed.

(** C4. Traversal completeness, ordering and pairing.  For every
    hierarchy, [iterate] hands to its handlers the events of the hierarchy;
    the enter handler is called once for every entry below the root, in
    depth-first pre-order and in the order of the maps, with the label
    computed along the path of the entry (a segment alone below an empty
    label, joined to the label above it with a dot otherwise); the calls of
    the exit handler are the calls of the enter handler in another order;
    between the enter and the exit of an entry stand the events of the
    entries below it and no others; the root is not among the visited
    entries.  When the keys of the hierarchy are segments, the label of an
    entry is its path joined by dots, the visited entries are the entries
    that the paths lead to, and no path and no label occurs twice.  For the
    paths a.b.c, a.b.d, a.e the labels are a, a.b, a.b.c, a.b.d, a.e. *)
Theorem traversal_complete (this : HierarchyEntry) :
  (forall (St : Type) (enter exit : string -> HierarchyEntry -> St -> St) st,
      iterate St enter exit this EmptyString st =
      fold_left (handle enter exit) (events this) st) /\
  enters (events this) =
  map (fun d => (labelFrom EmptyString (fst d), snd d)) (descendants this) /\
  (forall prevLabel label,
      totalLabel prevLabel label =
      if String.eqb prevLabel EmptyString then label
      else (prevLabel ++ "." ++ label)%string) /\
  Permutation (exits (events this)) (enters (events this)) /\
  (forall path entry,
      In (path, entry) (descendants this) ->
      exists before after,
        events this =
        (before
           ++ Enter (labelFrom EmptyString path) entry
           :: eventsFrom entry (labelFrom EmptyString path)
           ++ Exit (labelFrom EmptyString path) entry :: after)%list) /\
  Forall (fun d => fst d <> []) (descendants this) /\
  (forall path entry,
      path <> [] -> entryAt path this = Some entry ->
      In (path, entry) (descendants this)) /\
  (wellKeyed this = true ->
   enters (events this) =
   map (fun d => (join "." (fst d), snd d)) (descendants this) /\
   (forall path entry,
       In (path, entry) (descendants this) -> entryAt path this = Some entry) /\
   NoDup (map fst (descendants this)) /\
   NoDup (map fst (enters (events this)))) /\
  (forall x y z,
      map fst (enters (events (buildHierarchy
                                 [("a.b.c", x); ("a.b.d", y); ("a.e", z)]))) =
      ["a"; "a.b"; "a.b.c"; "a.b.d"; "a.e"]).
Proof.
  split; [|split; [|split; [|split; [|split; [|split; [|split; [|split]]]]]]].
  - intros St enter exit st. apply iterate_events.
  - apply enters_descendants.
  - intros prevLabel label. unfold totalLabel.
    destruct prevLabel; reflexivity.
  - apply exits_enters.
  - intros path entry Hin. apply events_nested. assumption.
  - apply descendants_below_root.
  - apply descendants_entryAt.
  - intros Hwk. split; [|split; [|split]].
    + apply enters_labels. assumption.
    + apply entryAt_descendants. assumption.
    + apply descendants_NoDup. assumption.
    + apply enters_NoDup. assumption.
  - intros x y z. reflexivity.
Qed.

Lemma traversal_complete_witness :
  let root := mkEntry (-1)
                [("text", mkEntry (-1)
                            [("print", mkEntry 12 [] None);
                             ("clear", mkEntry 40 [] None)] None);
                 ("sound", mkEntry 77 [] None)] None in
  wellKeyed root = true /\
  map fst (enters (events root)) = ["text"; "text.print"; "text.clear"; "sound"] /\
  NoDup (map fst (enters (events root))).
Proof.
  intros root. split; [reflexivity|]. split; [reflexivity|].
  exact (proj2 (proj2 (proj2
           (proj1 (proj2 (proj2 (proj2 (proj2 (proj2 (proj2 (proj2
              (traversal_complete root)))))))) eq_refl)))).
Defined.

(** C9. Frame conditions.  [setDescriptions] leaves the line numbers, the
    keys, their order and the elements of every entry as they are: the
    hierarchy without its descriptions is the same before and after.
    [iterate] assigns no field: it hands to its handlers the entries of
    the hierarchy as they stand in it, in pre-order, and its result is the
    state of the handlers only. *)
Theorem frame_conditions {LF : ListFile} (lines : list string)
        (this : HierarchyEntry) :
  clearDescriptions (fst (setDescriptions lines this)) = clearDescriptions this /\
  map snd (enters (events this)) = map snd (descendants this) /\
  Permutation (map snd (exits (events this))) (map snd (descendants this)).
Proof.
  assert (map snd (enters (events this)) = map snd (descendants this)) as E.
  { unfold events. rewrite enters_descendants, map_map. reflexivity. }
  split; [apply setDescriptions_clear|]. split; [exact E|].
  rewrite <- E. apply Permutation_map. apply exits_enters.
Qed.

(** ** Lookup *)

Lemma segments_indexOfDot (label : string) :
  0 <= indexOfDot label ->
  segments label =
  substr2 label 0 (indexOfDot label)
    :: segments (substr1 label (indexOfDot label + 1)).
Proof.
  unfold substr2, substr1. simpl strDrop.
  induction label as [|c r IH]; simpl indexOfDot; [lia|].
  simpl segments. destruct (isDot c); [reflexivity|].
  destruct (Z.ltb_spec (indexOfDot r) 0) as [Hlt|Hge]; [lia|].
  intros _. rewrite (IH Hge).
  replace (Z.to_nat (indexOfDot r + 1)) with (S (Z.to_nat (indexOfDot r))) by lia.
  replace (Z.to_nat (indexOfDot r + 1 + 1))
    with (S (S (Z.to_nat (indexOfDot r)))) by lia.
  replace (Z.to_nat (indexOfDot r + 1)) with (S (Z.to_nat (indexOfDot r))) by lia.
  reflexivity.
Qed.

(** [getEntry] walks down the segments of the label and gives up at the
    first segment that is not there. *)
Lemma getEntry_entryAt (this : HierarchyEntry) (label : string) :
  getEntry this label = entryAt (segments label) this.
Proof.
  funelim (getEntry this label).
  - rewrite segments_segment by (destruct (indexOfDot_range label); lia).
    simpl. destruct (mapGet label (elements this)); reflexivity.
  - rewrite segments_indexOfDot by lia. simpl. rewrite Heq. assumption.
  - rewrite segments_indexOfDot by lia. simpl. rewrite Heq. reflexivity.
Qed.

Lemma mapGet_mapSet_same {V : Type} (key : string) (v : V)
      (m : list (string * V)) :
  mapGet key (mapSet key v m) = Some v.
Proof.
  induction m as [|[k w] r IH]; simpl.
  - now rewrite String.eqb_refl.
  - destruct (String.eqb_spec k key) as [->|Hne]; simpl.
    + now rewrite String.eqb_refl.
    + destruct (String.eqb_spec k key); [congruence | assumption].
Qed.

Lemma mapGet_mapSet_other {V : Type} (key key' : string) (v : V)
      (m : list (string * V)) :
  key' <> key -> mapGet key' (mapSet key v m) = mapGet key' m.
Proof.
  intros Hne. induction m as [|[k w] r IH]; simpl.
  - destruct (String.eqb_spec key key'); [congruence | reflexivity].
  - destruct (String.eqb_spec k key) as [->|Hk]; simpl.
    + destruct (String.eqb_spec key key'); [congruence | reflexivity].
    + destruct (String.eqb_spec k key'); [reflexivity | assumption].
Qed.

(** The line numbers along all paths after one insertion. *)
Lemma lineOf_insertSegments (p : list string) (line : Z) :
  forall this q,
    lineOf q (insertSegments p line this) =
    if samePath q p then Some line
    else match lineOf q this with
         | Some l => Some l
         | None => if isPrefixOf q p then Some (-1) else None
         end.
Proof.
  unfold lineOf.
  induction p as [|seg p' IH]; intros this q.
  - destruct q as [|key q']; simpl.
    + destruct (samePath [] []); [reflexivity | congruence].
    + destruct (samePath (key :: q') []); [discriminate|].
      destruct (mapGet key (elements this)) as [child|]; simpl; [|reflexivity].
      destruct (entryAt q' child); reflexivity.
  - destruct q as [|key q']; cbn [insertSegments entryAt elements].
    + destruct (samePath [] (seg :: p')); [discriminate | reflexivity].
    + destruct (String.eqb_spec key seg) as [->|Hne].
      * rewrite mapGet_mapSet_same, IH. cbn [isPrefixOf].
        rewrite String.eqb_refl. cbn [andb].
        destruct (samePath q' p') as [->|Hq];
          destruct (samePath (seg :: _) (seg :: p')) as [E|E];
          try congruence; try reflexivity.
        destruct (mapGet seg (elements this)) as [child|]; [reflexivity|].
        destruct q' as [|key' q'']; simpl; [reflexivity|].
        reflexivity.
      * rewrite mapGet_mapSet_other by assumption. cbn [isPrefixOf].
        destruct (String.eqb_spec key seg); [congruence|]. cbn [andb].
        destruct (samePath (key :: q') (seg :: p')); [congruence|].
        destruct (mapGet key (elements this)) as [child|]; simpl; [|reflexivity].
        destruct (entryAt q' child); reflexivity.
Qed.

Lemma lastLine_app (labels : list (string * Z)) (label : string) (line : Z)
      (path : list string) :
  lastLine (labels ++ [(label, line)]) path =
  if samePath path (segments label) then Some line else lastLine labels path.
Proof.
  induction labels as [|[l n] rest IH]; simpl.
  - reflexivity.
  - rewrite IH. destruct (samePath path (segments label)); [reflexivity|].
    reflexivity.
Qed.

Lemma buildHierarchy_app (labels : list (string * Z)) (label : string) (line : Z) :
  buildHierarchy (labels ++ [(label, line)]) =
  insertSegments (segments label) line (buildHierarchy labels).
Proof. unfold buildHierarchy. rewrite fold_left_app. reflexivity. Qed.

(** The line numbers along all paths of the hierarchy built from a list
    of labels. *)
Lemma lineOf_buildHierarchy (labels : list (string * Z)) (path : list string) :
  lineOf path (buildHierarchy labels) =
  match lastLine labels path with
  | Some line => Some line
  | None => if onSomePath labels path then Some (-1) else None
  end.
Proof.
  induction labels as [|[label line] labels IH] using rev_ind.
  - destruct path as [|key rest]; reflexivity.
  - rewrite buildHierarchy_app, lineOf_insertSegments, lastLine_app, IH.
    destruct (samePath path (segments label)) as [E|E]; [reflexivity|].
    destruct (lastLine labels path) as [l|]; [reflexivity|].
    destruct path as [|key rest]; [reflexivity|].
    unfold onSomePath. rewrite existsb_app. simpl.
    destruct (existsb _ labels); [reflexivity|]. simpl.
    rewrite orb_false_r. reflexivity.
Qed.

Lemma isPrefixOf_refl (p : list string) : isPrefixOf p p = true.
Proof.
  induction p as [|x p IH]; simpl; [reflexivity|].
  now rewrite String.eqb_refl.
Qed.

Lemma segments_injective (a b : string) : segments a = segments b -> a = b.
Proof.
  intros E. rewrite <- (join_segments a), <- (join_segments b), E. reflexivity.
Qed.

Lemma lastLine_None (labels : list (string * Z)) (path : list string) :
  (forall label, In label (map fst labels) -> segments label <> path) ->
  lastLine labels path = None.
Proof.
  induction labels as [|[l n] rest IH]; simpl; [reflexivity|].
  intros H. rewrite IH by auto.
  destruct (samePath path (segments l)) as [E|E]; [|reflexivity].
  exfalso. apply (H l); auto.
Qed.

Lemma lastLine_last (before after : list (string * Z)) (label : string)
      (line : Z) :
  ~ In label (map fst after) ->
  lastLine (before ++ (label, line) :: after) (segments label) = Some line.
Proof.
  intros Hnot. induction before as [|[l n] before IH]; simpl.
  - rewrite lastLine_None.
    + destruct (samePath (segments label) (segments label)); congruence.
    + intros l Hin E. apply segments_injective in E. congruence.
  - rewrite IH. reflexivity.
Qed.

Lemma entryAt_prefix (q : list string) :
  forall p this node,
    entryAt p this = Some node -> isPrefixOf q p = true ->
    exists n, entryAt q this = Some n.
Proof.
  induction q as [|key q' IH]; intros p this node Hat Hpre.
  - exists this. reflexivity.
  - destruct p as [|key' p']; [discriminate|]. simpl in Hpre.
    apply andb_prop in Hpre as [Hk Hpre]. apply String.eqb_eq in Hk. subst key'.
    simpl in *. destruct (mapGet key (elements this)) as [child|];
      [|discriminate].
    apply (IH p' child node); assumption.
Qed.

(** C3, as the code has it.  [getEntry] returns the entry at the end of
    the segments of the label, and absence when a segment on the way is not
    there.  So the lookup of a label whose segments are a prefix of those
    of a label that is found gives an entry as well, and not absence.  In
    the hierarchy built from a list of labels: an inserted label is found,
    with the line number of its last insertion; a label whose segments are
    a prefix of those of an inserted label is found too, as the entry that
    groups the labels below it, with the sentinel line number when it is
    not an inserted label itself; every other label is absent. *)
Theorem lookup_after_insertion (labels : list (string * Z)) :
  (forall this label,
      getEntry this label = entryAt (segments label) this) /\
  (forall this label node prefix,
      getEntry this label = Some node ->
      isPrefixOf (segments prefix) (segments label) = true ->
      exists n, getEntry this prefix = Some n) /\
  (forall before label line after,
      labels = (before ++ (label, line) :: after)%list ->
      ~ In label (map fst after) ->
      exists node, getEntry (buildHierarchy labels) label = Some node /\
                   lineNumber node = line) /\
  (forall label inserted,
      In inserted (map fst labels) ->
      isPrefixOf (segments label) (segments inserted) = true ->
      exists node, getEntry (buildHierarchy labels) label = Some node /\
                   (~ In label (map fst labels) -> lineNumber node = -1)) /\
  (forall label,
      (forall inserted, In inserted (map fst labels) ->
                        isPrefixOf (segments label) (segments inserted) = false) ->
      getEntry (buildHierarchy labels) label = None).
Proof.
  assert (Hline : forall label,
             option_map lineNumber (getEntry (buildHierarchy labels) label) =
             match lastLine labels (segments label) with
             | Some line => Some line
             | None => if onSomePath labels (segments label)
                       then Some (-1) else None
             end).
  { intros label. rewrite getEntry_entryAt. apply lineOf_buildHierarchy. }
  split; [|split; [|split; [|split]]].
  - intros this label. apply getEntry_entryAt.
  - intros this label node prefix Hfound Hpre.
    rewrite getEntry_entryAt in Hfound. rewrite getEntry_entryAt.
    apply (entryAt_prefix _ _ _ _ Hfound Hpre).
  - intros before label line after -> Hnot.
    specialize (Hline label). rewrite lastLine_last in Hline by assumption.
    destruct (getEntry _ label) as [node|]; [|discriminate].
    exists node. split; [reflexivity|]. simpl in Hline. congruence.
  - intros label inserted Hin Hpre. specialize (Hline label).
    assert (onSomePath labels (segments label) = true) as Hon.
    { unfold onSomePath. destruct (segments label) as [|key rest] eqn:E;
        [reflexivity|].
      apply existsb_exists. apply in_map_iff in Hin as ([l n] & <- & Hin).
      exists (l, n). split; assumption. }
    rewrite Hon in Hline.
    destruct (getEntry _ label) as [node|];
      [|destruct (lastLine labels (segments label)); discriminate].
    exists node. split; [reflexivity|]. intros Hnot.
    rewrite lastLine_None in Hline.
    + simpl in Hline. congruence.
    + intros l Hl E. apply segments_injective in E. congruence.
  - intros label Hnone. specialize (Hline label).
    rewrite lastLine_None in Hline.
    + assert (onSomePath labels (segments label) = false) as Hoff.
      { unfold onSomePath. pose proof (segments_not_nil label) as Hne.
        destruct (segments label) as [|key rest] eqn:E; [congruence|].
        apply not_true_is_false. intros Hex.
        apply existsb_exists in Hex as ([l n] & Hin & Hpre).
        simpl fst in Hpre.
        rewrite (Hnone l) in Hpre; [discriminate|].
        apply (in_map fst) in Hin. exact Hin. }
      rewrite Hoff in Hline.
      destruct (getEntry _ label); [discriminate | reflexivity].
    + intros l Hl E. specialize (Hnone l Hl).
      rewrite E, isPrefixOf_refl in Hnone. discriminate.
Qed.

(** C3 as the claim states it fails.  In the hierarchy of the label
    text.print (the root holds text, which holds print at line 12), the
    lookup of text.print finds its entry, and the lookup of the proper
    prefix text returns the entry that groups the labels below it, not
    absence. *)
Lemma lookup_prefix_counterexample :
  let root :=
    mkEntry (-1)
            [("text", mkEntry (-1) [("print", mkEntry 12 [] None)] None)]
            None in
  buildHierarchy [("text.print", 12)] = root /\
  getEntry root "text.print" = Some (mkEntry 12 [] None) /\
  getEntry root "text" =
  Some (mkEntry (-1) [("print", mkEntry 12 [] None)] None).
Proof. repeat split. Qed.

(** * Further properties of the code *)

(** ** Lookup along dotted paths *)

Lemma segments_app (a b : string) :
  segments (a ++ "." ++ b) = (segments a ++ segments b)%list.
Proof.
  induction a as [|c r IH]; [reflexivity|].
  simpl. destruct (isDot c).
  - simpl in IH. rewrite IH. reflexivity.
  - simpl in IH. rewrite IH.
    pose proof (segments_not_nil r) as Hne.
    destruct (segments r) as [|seg rest]; [congruence | reflexivity].
Qed.

Lemma entryAt_app (p q : list string) :
  forall this,
    entryAt (p ++ q) this =
    match entryAt p this with
    | Some entry => entryAt q entry
    | None => None
    end.
Proof.
  induction p as [|key p' IH]; intros this; simpl; [reflexivity|].
  destruct (mapGet key (elements this)) as [child|]; [apply IH | reflexivity].
Qed.

(** X1. Lookups compose along the dots: the lookup of a label followed by
    a dot and a second label is the lookup of the second label in the
    entry that the first label leads to, and it is absent when the first
    lookup is absent.  The labels may hold dots themselves. *)
Theorem lookup_composes (this : HierarchyEntry) (a b : string) :
  getEntry this (a ++ "." ++ b) =
  match getEntry this a with
  | Some entry => getEntry entry b
  | None => None
  end.
Proof.
  rewrite !getEntry_entryAt, segments_app, entryAt_app.
  destruct (entryAt (segments a) this) as [entry|]; [|reflexivity].
  rewrite getEntry_entryAt. reflexivity.
Qed.

(** ** When description extraction throws *)

Section ThrowFacts.
Context {LF : ListFile}.

Lemma collectComments_defined (lines : list string) (k : Z) (descr : list string) :
  getMainLineOfUndefined <> None ->
  snd (collectComments lines k descr) <> None.
Proof.
  intros Hdef. funelim (collectComments lines k descr); simpl; try discriminate.
  - unfold mainLineAt in Heq. destruct (lineAt lines k); [discriminate|].
    congruence.
  - destruct (collectComments lines (k - 1) (comment :: descr)) as [reads r].
    simpl in *. auto.
Qed.

Lemma getSingleDescription_throws (lines : list string) (n : Z) :
  getSingleDescription n lines = Throws <->
  Z.of_nat (List.length lines) < n /\ getMainLineOfUndefined = None.
Proof.
  split.
  - intros Hthrow.
    destruct (Z_lt_dec (Z.of_nat (List.length lines)) n) as [Hbeyond|Hin].
    + split; [assumption|].
      destruct getMainLineOfUndefined as [s|] eqn:E; [|reflexivity].
      exfalso. revert Hthrow.
      unfold getSingleDescription, getSingleDescriptionRun.
      destruct (skipEmptyLines n lines n) as [reads1 [|j]]; simpl;
        [discriminate|].
      pose proof (collectComments_defined lines j []) as Hdef.
      destruct (collectComments lines j []) as [reads2 [descr|]]; simpl in *;
        [discriminate|].
      intros _. apply Hdef; [rewrite E; discriminate | reflexivity].
    + exfalso. destruct (Z_lt_dec n 0) as [Hneg|Hpos].
      * assert (getSingleDescription n lines = Returns None) as E
            by (apply getSingleDescription_absent; intros i Hi; lia).
        congruence.
      * apply (getSingleDescription_no_throw lines n); [lia | assumption].
  - intros [Hbeyond Hundef].
    assert (lineAt lines (n - 1) = None) as Hout.
    { unfold lineAt. destruct (Z.ltb_spec (n - 1) 0); [reflexivity|].
      apply nth_error_None. lia. }
    rewrite (getSingleDescription_found n lines (n - 1)); try lia.
    + rewrite collectComments_throw; [reflexivity | lia |].
      unfold mainLineAt. rewrite Hout. assumption.
    + unfold blankAt. rewrite Hout. reflexivity.
Qed.

(** X2. [getSingleDescription] ends in an exception in one case only: the
    line number lies beyond the end of the lines, so that the line above
    the label is [undefined], and [ListFile.getMainLine] throws on
    [undefined]. *)
Theorem throws_exactly (lines : list string) (n : Z) :
  getSingleDescription n lines = Throws <->
  Z.of_nat (List.length lines) < n /\ getMainLineOfUndefined = None.
Proof. apply getSingleDescription_throws. Qed.

Lemma forEachSublabel_returned (f : HierarchyEntry -> HierarchyEntry * bool)
      (m : list (string * HierarchyEntry)) :
  snd (forEachSublabel f m) = true ->
  Forall (fun element => snd (f (snd element)) = true) m.
Proof.
  induction m as [|[key sublabel] rest IH]; simpl; [constructor|].
  destruct (f sublabel) as [sublabel' ok] eqn:E. destruct ok; [|discriminate].
  destruct (forEachSublabel f rest) as [rest' ok']. simpl in *.
  intros ->. constructor; [simpl; rewrite E; reflexivity | auto].
Qed.

Lemma setDescriptions_returns_iff (lines : list string) (this : HierarchyEntry) :
  snd (setDescriptions lines this) = true <->
  Forall (fun node => getSingleDescription (lineNumber node) lines <> Throws)
         (entries this).
Proof.
  induction this as [ln els d0 IH] using HierarchyEntry_induction.
  simpl. destruct (getSingleDescription ln lines) as [d|] eqn:E.
  - assert (snd (forEachSublabel (setDescriptions lines) els) = true <->
            Forall (fun node =>
                      getSingleDescription (lineNumber node) lines <> Throws)
                   (flat_map (fun element => entries (snd element)) els)) as Hm.
    { split.
      - intros Hok. apply forEachSublabel_returned in Hok.
        clear E. induction IH as [|element rest Hel _ IHrest]; simpl;
          [constructor|].
        inversion Hok as [|? ? Hok1 Hok2]; subst.
        apply Forall_app. split; [apply Hel; assumption | auto].
      - intros Hall. apply forEachSublabel_returns.
        clear E. induction IH as [|element rest Hel _ IHrest]; [constructor|].
        simpl in Hall. apply Forall_app in Hall as [H1 H2].
        constructor; [apply Hel; assumption | auto]. }
    destruct (forEachSublabel (setDescriptions lines) els) as [els' ok].
    simpl in *. rewrite Hm. split.
    + intros Hall. constructor; [simpl; rewrite E; discriminate | assumption].
    + intros Hall. inversion Hall; assumption.
  - simpl. split; [discriminate|].
    intros Hall. inversion Hall as [|? ? Hhead _]; subst. simpl in Hhead.
    congruence.
Qed.

(** X3. [setDescriptions] runs to its end exactly when
    [ListFile.getMainLine] does not throw on [undefined] or no line number
    of the hierarchy lies beyond the end of the lines. *)
Theorem setDescriptions_returns_exactly (lines : list string)
        (this : HierarchyEntry) :
  snd (setDescriptions lines this) = true <->
  getMainLineOfUndefined <> None \/
  Forall (fun node => lineNumber node <= Z.of_nat (List.length lines))
         (entries this).
Proof.
  rewrite setDescriptions_returns_iff. split.
  - intros Hall. destruct getMainLineOfUndefined as [s|] eqn:E;
      [left; discriminate | right].
    eapply Forall_impl; [|exact Hall]. simpl. intros node Hnode.
    destruct (Z_le_dec (lineNumber node) (Z.of_nat (List.length lines)));
      [assumption|].
    exfalso. apply Hnode. apply getSingleDescription_throws. split; [lia | assumption].
  - intros [Hdef | Hall].
    + apply Forall_forall. intros node _ Hthrow.
      apply getSingleDescription_throws in Hthrow. tauto.
    + eapply Forall_impl; [|exact Hall]. simpl. intros node Hnode Hthrow.
      apply getSingleDescription_throws in Hthrow. lia.
Qed.

End ThrowFacts.

(** ** The description depends on the lines above the label only *)

Section LocalFacts.
Context {LF : ListFile}.

Lemma mainLineAt_agree (lines lines' : list string) (k : Z) :
  lineAt lines k = lineAt lines' k -> mainLineAt lines k = mainLineAt lines' k.
Proof. intros E. unfold mainLineAt. rewrite E. reflexivity. Qed.

Local Opaque mainLineAt.

Lemma collectComments_agree (lines lines' : list string) (k : Z)
      (descr : list string) :
  (forall i, 0 <= i <= k -> lineAt lines i = lineAt lines' i) ->
  snd (collectComments lines k descr) = snd (collectComments lines' k descr).
Proof.
  funelim (collectComments lines k descr); intros Hagree.
  - rewrite collectComments_done by lia. reflexivity.
  - rewrite (collectComments_throw lines' k); [reflexivity | lia |].
    rewrite <- (mainLineAt_agree lines lines') by (apply Hagree; lia).
    assumption.
  - rewrite (collectComments_step lines' k descr line comment);
      [| lia | | assumption].
    + simpl. destruct (collectComments lines (k - 1) (comment :: descr)).
      simpl in *. apply H. intros i Hi. apply Hagree. lia.
    + rewrite <- (mainLineAt_agree lines lines') by (apply Hagree; lia).
      assumption.
  - rewrite (collectComments_stop lines' k descr line);
      [reflexivity | lia | | assumption].
    rewrite <- (mainLineAt_agree lines lines') by (apply Hagree; lia).
    assumption.
Qed.

Local Transparent mainLineAt.

(** X4. The result of [getSingleDescription] depends on the lines above
    the label only: two arrays of lines that agree at every index below the
    line number give the same result, whatever the label line and the lines
    after it hold and however long the arrays are. *)
Theorem description_local (lines lines' : list string) (n : Z) :
  (forall i, 0 <= i < n -> lineAt lines i = lineAt lines' i) ->
  getSingleDescription n lines = getSingleDescription n lines'.
Proof.
  intros Hagree.
  assert (Hblank : forall i, 0 <= i < n -> blankAt lines i = blankAt lines' i).
  { intros i Hi. unfold blankAt. rewrite (Hagree i Hi). reflexivity. }
  pose proof (skipEmptyLines_spec n lines n ltac:(lia)) as Hs.
  destruct (snd (skipEmptyLines n lines n)) as [|j] eqn:E.
  - assert (getSingleDescription n lines = Returns None) as ->
        by (apply getSingleDescription_absent; exact Hs).
    symmetry. apply getSingleDescription_absent. intros i Hi.
    rewrite <- Hblank by lia. apply Hs. assumption.
  - destruct Hs as (Hj & Hd & Hnb & Hb).
    rewrite (getSingleDescription_found n lines j Hj Hd Hnb Hb).
    rewrite (getSingleDescription_found n lines' j Hj Hd).
    + rewrite (collectComments_agree lines lines' j []); [reflexivity|].
      intros i Hi. apply Hagree. lia.
    + rewrite <- Hblank by lia. assumption.
    + intros i Hi. rewrite <- Hblank by lia. apply Hb. assumption.
Qed.

End LocalFacts.

Lemma description_local_witness :
  let lines := ["; Waits for a key"; "wait_key:"; "  ret"] in
  let lines' := ["; Waits for a key"; "wait_key: nop"] in
  (forall i, 0 <= i < 1 -> lineAt lines i = lineAt lines' i) /\
  @getSingleDescription plainListFile 1 lines =
  @getSingleDescription plainListFile 1 lines'.
Proof.
  intros lines lines'.
  assert (H : forall i, 0 <= i < 1 -> lineAt lines i = lineAt lines' i).
  { intros i Hi. assert (i = 0) as -> by lia. reflexivity. }
  split; [exact H|].
  exact (@description_local plainListFile lines lines' 1 H).
Defined.

(** ** The comment block above a label *)

Lemma lineAt_app_at (a : list string) (x : string) (b : list string) :
  lineAt (a ++ x :: b) (Z.of_nat (List.length a)) = Some x.
Proof.
  unfold lineAt. destruct (Z.ltb_spec (Z.of_nat (List.length a)) 0); [lia|].
  rewrite Nat2Z.id. rewrite nth_error_app2 by lia.
  rewrite Nat.sub_diag. reflexivity.
Qed.

Lemma lineAt_app_skip (a b : list string) (i : Z) :
  0 <= i -> lineAt (a ++ b) (Z.of_nat (List.length a) + i) = lineAt b i.
Proof.
  intros Hi. unfold lineAt.
  destruct (Z.ltb_spec (Z.of_nat (List.length a) + i) 0); [lia|].
  destruct (Z.ltb_spec i 0); [lia|].
  rewrite nth_error_app2 by lia. f_equal. lia.
Qed.

Lemma lineAt_In (lines : list string) (i : Z) :
  0 <= i < Z.of_nat (List.length lines) ->
  exists raw, lineAt lines i = Some raw /\ In raw lines.
Proof.
  intros Hi. unfold lineAt. destruct (Z.ltb_spec i 0); [lia|].
  destruct (nth_error lines (Z.to_nat i)) as [raw|] eqn:E.
  - exists raw. split; [reflexivity|]. eapply nth_error_In. exact E.
  - apply nth_error_None in E. lia.
Qed.

Section BlockFacts.
Context {LF : ListFile}.

Lemma collectComments_block (block : list string) :
  forall texts pre rest descr,
    Forall2 (fun raw c => commentText (getMainLine raw) = Some c) block texts ->
    pre = [] \/
    (exists pre' stop, pre = (pre' ++ [stop])%list /\
                       commentText (getMainLine stop) = None) ->
    snd (collectComments (pre ++ block ++ rest)
                         (Z.of_nat (List.length pre + List.length block) - 1)
                         descr) =
    Some (texts ++ descr)%list.
Proof.
  induction block as [|b block' IH] using rev_ind;
    intros texts pre rest descr HF Hpre.
  - inversion HF; subst. simpl.
    destruct Hpre as [-> | (pre' & stop & -> & Hstop)].
    + rewrite collectComments_done by (simpl; lia). reflexivity.
    + rewrite <- app_assoc. simpl.
      rewrite (collectComments_stop _ _ _ (getMainLine stop)); auto.
      * rewrite length_app. simpl. lia.
      * apply mainLineAt_line.
        replace (Z.of_nat (List.length (pre' ++ [stop]) + 0) - 1)
          with (Z.of_nat (List.length pre'))
          by (rewrite length_app; simpl; lia).
        apply lineAt_app_at.
  - apply Forall2_app_inv_l in HF as (texts' & tb & HF' & Hb & ->).
    inversion Hb as [|? c ? ? Hc Hnil]; subst. inversion Hnil; subst.
    assert (lineAt (pre ++ (block' ++ [b]) ++ rest)
                   (Z.of_nat (List.length pre + List.length (block' ++ [b])) - 1)
            = Some b) as Hat.
    { replace (Z.of_nat (List.length pre + List.length (block' ++ [b])) - 1)
        with (Z.of_nat (List.length (pre ++ block')))
        by (rewrite !length_app; simpl; lia).
      rewrite <- app_assoc, app_assoc. simpl. apply lineAt_app_at. }
    rewrite (collectComments_step _ _ _ (getMainLine b) c);
      [| rewrite length_app; simpl; lia | apply mainLineAt_line; exact Hat
       | assumption].
    simpl snd.
    replace (Z.of_nat (List.length pre + List.length (block' ++ [b])) - 1 - 1)
      with (Z.of_nat (List.length pre + List.length block') - 1)
      by (rewrite length_app; simpl; lia).
    rewrite <- (app_assoc block' [b] rest). simpl.
    rewrite (IH texts' pre (b :: rest) (c :: descr) HF' Hpre).
    rewrite <- app_assoc. reflexivity.
Qed.

(** X5. The description of a label is the whole block of comment lines
    above it.  When the lines above the label are, from the top: the start
    of the source or a line whose logical text is no comment, then a block
    of one or more comment lines, then at most two blank lines, the result
    is the texts of all comment lines of the block, in the order of the
    source, joined by newlines. *)
Theorem comment_block_description (pre block gap rest texts : list string) :
  Forall2 (fun raw c => commentLine raw c) block texts ->
  block <> [] ->
  Forall (fun raw => isBlank raw = true) gap ->
  (List.length gap <= 2)%nat ->
  pre = [] \/
  (exists pre' stop, pre = (pre' ++ [stop])%list /\
                     commentText (getMainLine stop) = None) ->
  getSingleDescription (Z.of_nat (List.length (pre ++ block ++ gap)))
                       (pre ++ block ++ gap ++ rest) =
  Returns (Some (join newline texts)).
Proof.
  intros HF Hne Hgap Hlen Hpre.
  assert (HF' : Forall2 (fun raw c => commentText (getMainLine raw) = Some c)
                        block texts).
  { eapply Forall2_impl; [|exact HF]. intros raw c [_ Hc]. exact Hc. }
  destruct (exists_last Hne) as (block' & b & Eb).
  assert (isBlank b = false) as Hb.
  { rewrite Eb in HF. apply Forall2_app_inv_l in HF as (t1 & t2 & _ & H2 & _).
    inversion H2 as [|? ? ? ? [Hnb _] _]; subst. assumption. }
  set (lines := (pre ++ block ++ gap ++ rest)%list).
  set (j := Z.of_nat (List.length pre + List.length block) - 1).
  assert (Hlast : lineAt lines j = Some b).
  { unfold lines, j. rewrite Eb.
    replace (Z.of_nat (List.length pre + List.length (block' ++ [b])) - 1)
      with (Z.of_nat (List.length (pre ++ block')))
      by (rewrite !length_app; simpl; lia).
    rewrite <- (app_assoc block' [b]). rewrite app_assoc. simpl.
    apply lineAt_app_at. }
  assert (Hblock : List.length block <> 0%nat) by (destruct block; simpl; congruence).
  rewrite (getSingleDescription_found _ lines j).
  - unfold lines, j. rewrite (collectComments_block block texts pre _ [] HF' Hpre).
    rewrite app_nil_r. reflexivity.
  - unfold j. rewrite !length_app. lia.
  - unfold j. rewrite !length_app. lia.
  - rewrite (blankAt_line _ _ _ Hlast). assumption.
  - intros i Hi. unfold j in Hi. rewrite !length_app in Hi.
    assert (exists m, 0 <= m < Z.of_nat (List.length gap) /\
                      i = Z.of_nat (List.length (pre ++ block)) + m)
      as (m & Hm & ->).
    { exists (i - Z.of_nat (List.length (pre ++ block))).
      rewrite length_app. lia. }
    unfold blankAt, lines. rewrite (app_assoc pre block).
    rewrite lineAt_app_skip by lia.
    assert (lineAt (gap ++ rest) m = lineAt gap m) as ->.
    { unfold lineAt. destruct (Z.ltb_spec m 0); [reflexivity|].
      apply nth_error_app1. lia. }
    destruct (lineAt_In gap m Hm) as (g & -> & Hin). simpl.
    rewrite Forall_forall in Hgap. apply Hgap. assumption.
Qed.

End BlockFacts.

Lemma comment_block_description_witness :
  let pre := ["  ret"] in
  let block := ["; Prints a text"; ";  HL = address"] in
  let gap := [""] in
  let rest := ["print:"; "  nop"] in
  let texts := [" Prints a text"; "  HL = address"] in
  (Forall2 (fun raw c => @commentLine plainListFile raw c) block texts /\
   Forall (fun raw => isBlank raw = true) gap /\
   (List.length gap <= 2)%nat /\
   commentText (@getMainLine plainListFile "  ret") = None) /\
  @getSingleDescription plainListFile 4 (pre ++ block ++ gap ++ rest) =
  Returns (Some (" Prints a text" ++ newline ++ "  HL = address")).
Proof.
  intros pre block gap rest texts.
  assert (H1 : Forall2 (fun raw c => @commentLine plainListFile raw c) block texts).
  { repeat constructor. }
  assert (H2 : Forall (fun raw => isBlank raw = true) gap).
  { repeat constructor. }
  assert (H3 : (List.length gap <= 2)%nat) by (simpl; lia).
  assert (H4 : commentText (@getMainLine plainListFile "  ret") = None)
    by reflexivity.
  split; [repeat split; assumption|].
  refine (@comment_block_description plainListFile pre block gap rest texts
            H1 _ H2 H3 (or_intror (ex_intro _ [] (ex_intro _ "  ret"
                                                    (conj eq_refl H4))))).
  discriminate.
Defined.

(** ** More on the traversal *)

Lemma fold_enters (St : Type) (enter : string -> HierarchyEntry -> St -> St)
      (evs : list Event) :
  forall st,
    fold_left (handle enter (fun _ _ st => st)) evs st =
    fold_left (fun st call => enter (fst call) (snd call) st) (enters evs) st.
Proof.
  induction evs as [|[label entry | label entry] rest IH]; intros st; simpl;
    [reflexivity | apply IH | apply IH].
Qed.

(** X6. With the default exit handler, which does nothing, [iterate]
    applies the enter handler to the labels and entries below the root, one
    after the other in pre-order, and does nothing else to the state of the
    caller. *)
Theorem iterate_default_exit (St : Type)
        (enter : string -> HierarchyEntry -> St -> St)
        (this : HierarchyEntry) (st : St) :
  iterate St enter (fun _ _ st => st) this EmptyString st =
  fold_left (fun st call => enter (fst call) (snd call) st)
            (map (fun d => (labelFrom EmptyString (fst d), snd d))
                 (descendants this))
            st.
Proof.
  rewrite iterate_events, fold_enters. unfold events.
  rewrite enters_descendants. reflexivity.
Qed.

Lemma nesting_eventsFrom (this : HierarchyEntry) :
  forall prevLabel stack more,
    nesting stack (eventsFrom this prevLabel ++ more) = nesting stack more.
Proof.
  induction this as [ln els d IH] using HierarchyEntry_induction.
  intros prevLabel stack more. rewrite eventsFrom_elements. simpl elements.
  induction IH as [|[label entry] rest Hentry _ IHrest]; [reflexivity|].
  cbn [flat_map]. unfold elementEvents at 1. simpl fst. simpl snd.
  rewrite <- app_assoc. simpl. rewrite <- app_assoc. simpl in Hentry.
  rewrite Hentry. simpl. rewrite String.eqb_refl. apply IHrest.
Qed.

Lemma events_length (this : HierarchyEntry) :
  forall prevLabel,
    List.length (eventsFrom this prevLabel) =
    (2 * List.length (descendants this))%nat.
Proof.
  induction this as [ln els d IH] using HierarchyEntry_induction.
  intros prevLabel. rewrite eventsFrom_elements, descendants_elements.
  simpl elements.
  induction IH as [|[label entry] rest Hentry _ IHrest]; [reflexivity|].
  cbn [flat_map]. rewrite !length_app, IHrest. unfold elementEvents, below.
  simpl. rewrite length_app, length_map. simpl in Hentry. rewrite Hentry.
  simpl. lia.
Qed.

(** X7. The calls of the handlers are nested like brackets: every call of
    the exit handler closes the innermost label that is entered and not yet
    left, and at the end of [iterate] no label is left open.  There are
    two calls for every entry below the root. *)
Theorem events_balanced (this : HierarchyEntry) :
  nesting [] (events this) = Some [] /\
  List.length (events this) = (2 * List.length (descendants this))%nat.
Proof.
  split.
  - unfold events. rewrite <- (app_nil_r (eventsFrom this EmptyString)).
    apply nesting_eventsFrom.
  - apply events_length.
Qed.

(** ** Description attachment, lookup and traversal together *)

Section AttachFacts.
Context {LF : ListFile}.

Lemma forEachSublabel_overwrites (lines : list string)
      (m : list (string * HierarchyEntry)) :
  Forall (fun element =>
            forall that,
              clearDescriptions (snd element) = clearDescriptions that ->
              snd (setDescriptions lines (snd element)) =
              snd (setDescriptions lines that) /\
              (snd (setDescriptions lines (snd element)) = true ->
               fst (setDescriptions lines (snd element)) =
               fst (setDescriptions lines that))) m ->
  forall m',
    map (fun element => (fst element, clearDescriptions (snd element))) m =
    map (fun element => (fst element, clearDescriptions (snd element))) m' ->
    snd (forEachSublabel (setDescriptions lines) m) =
    snd (forEachSublabel (setDescriptions lines) m') /\
    (snd (forEachSublabel (setDescriptions lines) m) = true ->
     fst (forEachSublabel (setDescriptions lines) m) =
     fst (forEachSublabel (setDescriptions lines) m')).
Proof.
  induction 1 as [|[key sublabel] rest Hel _ IH]; intros [|[key' sublabel'] rest'] E;
    try discriminate; [split; reflexivity|].
  simpl in E. injection E as <- Ecl Erest. simpl in Hel.
  destruct (Hel sublabel' Ecl) as [Hok Hfst]. simpl.
  destruct (setDescriptions lines sublabel) as [s1 ok1].
  destruct (setDescriptions lines sublabel') as [s1' ok1']. simpl in *.
  subst ok1'. destruct ok1; [|split; [reflexivity | discriminate]].
  rewrite (Hfst eq_refl).
  destruct (IH rest' Erest) as [Hokr Hfstr].
  destruct (forEachSublabel (setDescriptions lines) rest) as [r1 okr].
  destruct (forEachSublabel (setDescriptions lines) rest') as [r1' okr'].
  simpl in *. subst okr'. split; [reflexivity|].
  intros ->. rewrite (Hfstr eq_refl). reflexivity.
Qed.

(** X8. [setDescriptions] overwrites the descriptions that are there: two
    hierarchies that differ in their descriptions only end the run in the
    same way, and after a run that returned they are the same. *)
Theorem setDescriptions_overwrites (lines : list string)
        (this that : HierarchyEntry) :
  clearDescriptions this = clearDescriptions that ->
  snd (setDescriptions lines this) = snd (setDescriptions lines that) /\
  (snd (setDescriptions lines this) = true ->
   fst (setDescriptions lines this) = fst (setDescriptions lines that)).
Proof.
  revert that.
  induction this as [ln els d IH] using HierarchyEntry_induction.
  intros [ln' els' d'] E. simpl in E. injection E as <- Eels. simpl.
  destruct (getSingleDescription ln lines) as [r|];
    [|split; [reflexivity | discriminate]].
  destruct (forEachSublabel_overwrites lines els IH els' Eels) as [Hok Hfst].
  destruct (forEachSublabel (setDescriptions lines) els) as [e1 ok].
  destruct (forEachSublabel (setDescriptions lines) els') as [e1' ok'].
  simpl in *. subst ok'. split; [reflexivity|].
  intros ->. rewrite (Hfst eq_refl). reflexivity.
Qed.

Lemma mapGet_map {V W : Type} (f : V -> W) (key : string)
      (m : list (string * V)) :
  mapGet key (map (fun element => (fst element, f (snd element))) m) =
  option_map f (mapGet key m).
Proof.
  induction m as [|[k v] r IH]; simpl; [reflexivity|].
  destruct (String.eqb k key); [reflexivity | assumption].
Qed.

Lemma entryAt_clear (path : list string) :
  forall this,
    entryAt path (clearDescriptions this) =
    option_map clearDescriptions (entryAt path this).
Proof.
  induction path as [|key rest IH]; intros [ln els d]; [reflexivity|].
  simpl. rewrite mapGet_map.
  destruct (mapGet key els) as [child|]; simpl; [apply IH | reflexivity].
Qed.

Lemma entryAt_entries (path : list string) :
  forall this entry, entryAt path this = Some entry -> In entry (entries this).
Proof.
  induction path as [|key rest IH]; intros [ln els d] entry; simpl.
  - intros E. injection E as <-. now left.
  - destruct (mapGet key els) as [child|] eqn:Eg; [|discriminate].
    intros Hat. right. apply in_flat_map. exists (key, child).
    split; [apply mapGet_In; assumption | apply (IH child); assumption].
Qed.

(** X9. [getEntry] after [setDescriptions]: a label is found after the run
    exactly when it was found before.  After a run that returned, the entry
    found differs from the one found before in its descriptions only, and
    its description is the result of [getSingleDescription] for its line
    number. *)
Theorem lookup_after_setDescriptions (lines : list string)
        (this : HierarchyEntry) (label : string) :
  snd (setDescriptions lines this) = true ->
  match getEntry this label with
  | None => getEntry (fst (setDescriptions lines this)) label = None
  | Some entry =>
      exists entry',
        getEntry (fst (setDescriptions lines this)) label = Some entry' /\
        clearDescriptions entry' = clearDescriptions entry /\
        lineNumber entry' = lineNumber entry /\
        getSingleDescription (lineNumber entry) lines =
        Returns (description entry')
  end.
Proof.
  intros Hok. rewrite !getEntry_entryAt.
  pose proof (entryAt_clear (segments label) (fst (setDescriptions lines this)))
    as Hafter.
  rewrite setDescriptions_clear, entryAt_clear in Hafter.
  destruct (entryAt (segments label) this) as [entry|];
    destruct (entryAt (segments label) (fst (setDescriptions lines this)))
    as [entry'|] eqn:E; simpl in Hafter; try discriminate; [|reflexivity].
  injection Hafter as Hcl. exists entry'.
  assert (lineNumber entry' = lineNumber entry) as Hln.
  { destruct entry, entry'. simpl in Hcl. injection Hcl as -> _. reflexivity. }
  repeat split; auto.
  rewrite <- Hln. apply entryAt_entries in E.
  pose proof (setDescriptions_entries lines this Hok) as Hall.
  rewrite Forall_forall in Hall. apply (Hall _ E).
Qed.

Lemma paths_clear (this : HierarchyEntry) :
  map fst (descendants (clearDescriptions this)) = map fst (descendants this).
Proof.
  induction this as [ln els d IH] using HierarchyEntry_induction.
  rewrite !descendants_elements. simpl elements.
  induction IH as [|[key child] rest Hel _ IHrest]; [reflexivity|].
  cbn [map flat_map]. rewrite !map_app, IHrest, !paths_below.
  simpl in *. rewrite Hel. reflexivity.
Qed.

(** X10. [setDescriptions] does not change what [iterate] visits: the
    labels handed to the enter handler are the same, in the same order,
    before and after the run. *)
Theorem labels_after_setDescriptions (lines : list string)
        (this : HierarchyEntry) :
  map fst (enters (events (fst (setDescriptions lines this)))) =
  map fst (enters (events this)).
Proof.
  unfold events. rewrite !enters_descendants, !map_map. simpl.
  rewrite <- !(map_map fst (labelFrom EmptyString)).
  rewrite <- (paths_clear (fst (setDescriptions lines this))).
  rewrite setDescriptions_clear, paths_clear. reflexivity.
Qed.

End AttachFacts.

Lemma setDescriptions_overwrites_witness :
  let lines := ["; Clears the screen"; "cls:"] in
  let this := mkEntry (-1) [("cls", mkEntry 1 [] (Some "old text"))] (Some "x") in
  let that := mkEntry (-1) [("cls", mkEntry 1 [] None)] None in
  clearDescriptions this = clearDescriptions that /\
  fst (@setDescriptions plainListFile lines this) =
  fst (@setDescriptions plainListFile lines that).
Proof.
  intros lines this that. split; [reflexivity|].
  exact (proj2 (@setDescriptions_overwrites plainListFile lines this that eq_refl)
               eq_refl).
Defined.

Lemma lookup_after_setDescriptions_witness :
  let lines := ["; Clears the screen"; "cls:"] in
  let this := mkEntry (-1) [("cls", mkEntry 1 [] None)] None in
  snd (@setDescriptions plainListFile lines this) = true /\
  exists entry',
    getEntry (fst (@setDescriptions plainListFile lines this)) "cls" =
    Some entry' /\
    clearDescriptions entry' = clearDescriptions (mkEntry 1 [] None) /\
    lineNumber entry' = 1 /\
    @getSingleDescription plainListFile 1 lines = Returns (description entry').
Proof.
  intros lines this. split; [reflexivity|].
  exact (@lookup_after_setDescriptions plainListFile lines this "cls" eq_refl).
Defined.

(** ** The labels of the traversal are the labels of the lookup *)

(** X11. In a hierarchy whose keys are segments, [iterate] and [getEntry]
    agree: the enter handler is called with a label and an entry exactly
    when [getEntry] returns that entry for that label. *)
Theorem traversal_labels_lookup (this : HierarchyEntry) :
  wellKeyed this = true ->
  forall label entry,
    In (label, entry) (enters (events this)) <->
    getEntry this label = Some entry.
Proof.
  intros Hwk label entry. rewrite (enters_labels this Hwk), getEntry_entryAt.
  pose proof (descendants_segments this Hwk) as Hseg.
  pose proof (descendants_below_root this) as Hne.
  rewrite Forall_forall in Hseg, Hne.
  split.
  - intros Hin. apply in_map_iff in Hin as ([path e] & E & Hin).
    simpl in E. injection E as <- <-.
    rewrite segments_join.
    + apply entryAt_descendants; assumption.
    + apply (Hne _ Hin).
    + specialize (Hseg _ Hin). simpl in Hseg.
      eapply Forall_impl; [|exact Hseg]. simpl. intros seg Hs.
      apply isSegment_spec in Hs. tauto.
  - intros Hat. apply in_map_iff. exists (segments label, entry). simpl.
    rewrite join_segments. split; [reflexivity|].
    apply descendants_entryAt; [apply segments_not_nil | assumption].
Qed.

Lemma traversal_labels_lookup_witness :
  let root := mkEntry (-1)
                [("text", mkEntry (-1) [("print", mkEntry 12 [] None)] None);
                 ("sound", mkEntry 77 [] None)] None in
  wellKeyed root = true /\
  getEntry root "text.print" = Some (mkEntry 12 [] None) /\
  In ("text.print", mkEntry 12 [] None) (enters (events root)).
Proof.
  intros root. split; [reflexivity|]. split; [reflexivity|].
  exact (proj2 (traversal_labels_lookup root eq_refl "text.print"
                                        (mkEntry 12 [] None)) eq_refl).
Defined.

(** ** The text of a comment line *)

Lemma isSpace_not_semicolon (c : ascii) : isSpace c = true -> isSemicolon c = false.
Proof.
  destruct c as [[] [] [] [] [] [] [] []]; simpl; intros H;
    try reflexivity; discriminate.
Qed.

Lemma dotStar_spec (s : string) :
  exists tail,
    s = (dotStar s ++ tail)%string /\ oneLine (dotStar s) = true /\
    (tail = EmptyString \/
     exists t r, tail = String t r /\ isLineTerminator t = true).
Proof.
  induction s as [|c r (tail & E & Hone & Htail)]; simpl.
  - exists EmptyString. auto.
  - destruct (isLineTerminator c) eqn:Hc.
    + exists (String c r). repeat split; auto. right. exists c, r. auto.
    + exists tail. simpl. rewrite Hc, Hone. repeat split; auto.
      f_equal. assumption.
Qed.

Lemma dotStar_oneLine (c tail : string) :
  oneLine c = true ->
  tail = EmptyString \/
  (exists t r, tail = String t r /\ isLineTerminator t = true) ->
  dotStar (c ++ tail) = c.
Proof.
  intros Hone Htail. induction c as [|x c IH]; simpl in *.
  - destruct Htail as [-> | (t & r & -> & Ht)]; simpl; [reflexivity|].
    rewrite Ht. reflexivity.
  - apply andb_prop in Hone as [Hx Hc]. apply negb_true_iff in Hx.
    rewrite Hx, (IH Hc). reflexivity.
Qed.

(** X12. What the comment pattern captures.  The logical text of a line
    matches with the capture [c] exactly when it is white space, a
    semicolon, [c], and then nothing or a line terminator and more text,
    where [c] holds no line terminator.  So the text keeps the white space
    after the semicolon and every further semicolon, and ends at the end of
    the line. *)
Theorem comment_text_spec (s c : string) :
  commentText s = Some c <->
  exists ws tail,
    s = (ws ++ ";" ++ c ++ tail)%string /\ isBlank ws = true /\
    oneLine c = true /\
    (tail = EmptyString \/
     exists t r, tail = String t r /\ isLineTerminator t = true).
Proof.
  split.
  - revert c. induction s as [|x s IH]; intros c; simpl; [discriminate|].
    destruct (isSemicolon x) eqn:Hx.
    + intros E. injection E as <-.
      destruct (dotStar_spec s) as (tail & E & Hone & Htail).
      exists EmptyString, tail. simpl. repeat split; auto.
      f_equal; [|assumption].
      unfold isSemicolon in Hx. apply Nat.eqb_eq in Hx.
      rewrite <- (ascii_nat_embedding x), Hx. reflexivity.
    + destruct (isSpace x) eqn:Hs; [|discriminate].
      intros E. destruct (IH c E) as (ws & tail & -> & Hws & Hone & Htail).
      exists (String x ws), tail. simpl. rewrite Hs, Hws. repeat split; auto.
  - intros (ws & tail & -> & Hws & Hone & Htail).
    induction ws as [|x ws IH]; simpl in *.
    + rewrite dotStar_oneLine by assumption. reflexivity.
    + apply andb_prop in Hws as [Hx Hws].
      rewrite (isSpace_not_semicolon x Hx), Hx. apply IH. assumption.
Qed.
